(** * Marker synchronisation and viewport fitting of the logistics map view

    A shallow embedding of [src/components/map/MapMarkers.tsx] (with the
    record types of [src/types]) and the properties of the marker cache
    and of the viewport fitter.

    Conventions of the embedding.
    - A JavaScript string is a [string] holding the UTF-8 bytes of a
      well-formed text, and [encodeURIComponent] is the ECMAScript builtin
      on such texts.  (A string with an unpaired surrogate, on which the
      builtin throws [URIError], is no text and has no counterpart here.)
    - A JavaScript [number] is idealised as a rational [Q]; how it prints
      inside a template literal is left to the platform
      ([Number_toString]).
    - An [L.Marker] is an object of a heap and is named by its index there
      (its identity).  Leaflet's map is a set of attached layers, a view
      and the log of the calls it received; what the map's configuration
      (its zoom limits, its zoom snap, its maximal bounds) makes of a
      requested view is left to the platform ([limitZoom],
      [limitCenter]).
    - A thrown exception is the outcome [Thrown]. *)

From Stdlib Require Import Ascii String QArith Qminmax Qabs Lqa.
From stdpp Require Import base option list strings pretty gmap.

Set Default Proof Using "Type".
#[local] Set Warnings "-clear-no-such-hyp".
Local Open Scope string_scope.
Local Open Scope list_scope.

(* ===================================================================== *)
(** ** Strings of the platform *)
(* ===================================================================== *)

Module Js.

(** The double quote and the line feed, for the template literals. *)
Definition dq : string := String (Ascii.ascii_of_nat 34) EmptyString.
Definition nl : string := String (Ascii.ascii_of_nat 10) EmptyString.

(** [Array.prototype.join]. *)
Fixpoint join (sep : string) (l : list string) : string :=
  match l with
  | [] => ""
  | [x] => x
  | x :: rest => x ++ sep ++ join sep rest
  end.

(** [encodeURIComponent]: the text is taken in UTF-8 and every byte that
    is not an unreserved character becomes [%XX].  The unreserved
    characters are the ASCII letters, the decimal digits and
    [- _ . ! ~ * ' ( )]. *)
Definition uriUnreserved (c : ascii) : bool :=
  let n := Ascii.N_of_ascii c in
  ((65 <=? n) && (n <=? 90) || (97 <=? n) && (n <=? 122)
   || (48 <=? n) && (n <=? 57)
   || bool_decide (n ∈ [45; 95; 46; 33; 126; 42; 39; 40; 41]))%N.

Definition hexDigit (n : N) : ascii :=
  if (n <? 10)%N then Ascii.ascii_of_N (48 + n) else Ascii.ascii_of_N (55 + n).

(** One byte of the UTF-8 form, escaped as [%XX] with upper-case digits. *)
Definition percentEscape (c : ascii) : string :=
  let n := Ascii.N_of_ascii c in
  String "%"%char (String (hexDigit (n / 16)) (String (hexDigit (n mod 16)) EmptyString)).

Definition encodeByte (c : ascii) : string :=
  if uriUnreserved c then String c EmptyString else percentEscape c.

Fixpoint encodeURIComponent (s : string) : string :=
  match s with
  | EmptyString => EmptyString
  | String c rest => encodeByte c ++ encodeURIComponent rest
  end.

(** The value of a hexadecimal digit, for the inverse direction. *)
Definition hexValue (c : ascii) : option N :=
  let n := Ascii.N_of_ascii c in
  if ((48 <=? n) && (n <=? 57))%N then Some (n - 48)%N
  else if ((65 <=? n) && (n <=? 70))%N then Some (n - 55)%N
  else if ((97 <=? n) && (n <=? 102))%N then Some (n - 87)%N
  else None.

(** Percent-decoding to bytes: every [%XY] becomes the byte [XY], every
    other character stands for itself.  It is what a server applies to a
    query parameter; the encoder is judged against it. *)
Fixpoint percentDecode (s : string) : option string :=
  match s with
  | EmptyString => Some EmptyString
  | String c rest =>
      if Ascii.eqb c "%"%char then
        match rest with
        | String h (String l rest') =>
            match hexValue h, hexValue l, percentDecode rest' with
            | Some a, Some b, Some r => Some (String (Ascii.ascii_of_N (16 * a + b)) r)
            | _, _, _ => None
            end
        | _ => None
        end
      else
        match percentDecode rest with
        | Some r => Some (String c r)
        | None => None
        end
  end.

(** What may occur in an encoded component. *)
Definition uriSafe (c : ascii) : bool :=
  uriUnreserved c || Ascii.eqb c "%"%char.

Fixpoint allChars (p : ascii -> bool) (s : string) : bool :=
  match s with
  | EmptyString => true
  | String c rest => p c && allChars p rest
  end.

End Js.

(* ===================================================================== *)
(** ** [Map<string, V>]: a map that remembers the order of insertion *)
(* ===================================================================== *)

Module JsMap.

Abbreviation t V := (list (string * V)).

Definition empty {V} : t V := [].

Fixpoint get {V} (k : string) (m : t V) : option V :=
  match m with
  | [] => None
  | (k', v) :: rest => if decide (k = k') then Some v else get k rest
  end.

Definition has {V} (k : string) (m : t V) : bool :=
  match get k m with Some _ => true | None => false end.

(** [set] overwrites in place when the key is there and appends otherwise. *)
Fixpoint set {V} (k : string) (v : V) (m : t V) : t V :=
  match m with
  | [] => [(k, v)]
  | (k', v') :: rest =>
      if decide (k = k') then (k, v) :: rest else (k', v') :: set k v rest
  end.

Definition delete {V} (k : string) (m : t V) : t V :=
  filter (λ e, e.1 ≠ k) m.

Definition keys {V} (m : t V) : list string := m.*1.
Definition values {V} (m : t V) : list V := m.*2.

(** The invariant of the data type: one entry per key. *)
Definition wf {V} (m : t V) : Prop := NoDup (keys m).

End JsMap.

(* ===================================================================== *)
(** ** The records of [src/types] *)
(* ===================================================================== *)

Record LatLng := { lat : Q; lng : Q }.

(** ['interne' | 'externe'] *)
Inductive EmployeeType := interne | externe.

Definition EmployeeType_toString (e : EmployeeType) : string :=
  match e with interne => "interne" | externe => "externe" end.

#[global] Instance EmployeeType_eq_dec : EqDecision EmployeeType.
Proof. solve_decision. Defined.

Module Warehouse.
Record t := {
  id : string;
  name : string;
  companyId : string;
  companyName : string;
  phone : list string;
  address : string;
  coordinates : LatLng;
  createdAt : string
}.
End Warehouse.
Abbreviation Warehouse := Warehouse.t.

Module Chauffeur.
Record t := {
  id : string;
  firstName : string;
  lastName : string;
  fullName : string;
  username : string;
  password : string;
  phone : list string;
  vehicleType : string;
  employeeType : EmployeeType;
  isActive : bool;
  createdAt : string;
  coordinates : option LatLng
}.
End Chauffeur.
Abbreviation Chauffeur := Chauffeur.t.

(* ===================================================================== *)
(** ** Leaflet objects *)
(* ===================================================================== *)

(** The identity of an [L.Marker]: its index in the heap of markers. *)
Definition handle := nat.

(** The four icons of [./MapIcons], a module that is not among the
    sources at hand: they are kept as four distinct constants. *)
Inductive Icon := warehouseIcon | chauffeurIcon | desktopWarehouseIcon | desktopChauffeurIcon.

Record PopupOptions := {
  maxWidth : Z;
  closeButton : bool;
  autoClose : bool;
  autoPan : bool;
  offset : Z * Z;
  className : string
}.

Record Popup := { content : string; options : PopupOptions }.

(** A caller-supplied function, known by its identity only. *)
Definition Callback := nat.

(** The two closures registered on ['click'], with what they capture. *)
Inductive ClickListener :=
| WarehouseClick (marker : handle) (onWarehouseClick : option Callback) (warehouse : Warehouse)
| ChauffeurClick (marker : handle) (onChauffeurClick : option Callback) (chauffeur : Chauffeur).

Record Marker := {
  latlng : LatLng;
  icon : Icon;
  popup : option Popup;
  listeners : list ClickListener
}.

(** What a click on a marker sets off. *)
Inductive UiEffect :=
| OpenPopup (marker : handle)
| WarehouseSelected (f : Callback) (warehouse : Warehouse)
| ChauffeurSelected (f : Callback) (chauffeur : Chauffeur).

Definition runListener (l : ClickListener) : list UiEffect :=
  match l with
  | WarehouseClick marker onWarehouseClick warehouse =>
      OpenPopup marker ::
      match onWarehouseClick with
      | Some f => [WarehouseSelected f warehouse]
      | None => []
      end
  | ChauffeurClick marker onChauffeurClick chauffeur =>
      OpenPopup marker ::
      match onChauffeurClick with
      | Some f => [ChauffeurSelected f chauffeur]
      | None => []
      end
  end.

(** [L.LatLngBounds]: no corner until the first point is added. *)
Record Box := { southWest : LatLng; northEast : LatLng }.
Definition LatLngBounds := option Box.

Definition extend (bounds : LatLngBounds) (p : LatLng) : LatLngBounds :=
  match bounds with
  | None => Some {| southWest := p; northEast := p |}
  | Some b =>
      Some {| southWest := {| lat := Qmin (lat p) (lat (southWest b));
                              lng := Qmin (lng p) (lng (southWest b)) |};
              northEast := {| lat := Qmax (lat p) (lat (northEast b));
                              lng := Qmax (lng p) (lng (northEast b)) |} |}
  end.

Record FitBoundsOptions := { padding : Z * Z; maxZoom : Q }.

(** The calls the map receives that change it. *)
Inductive MapCall :=
| AddLayer (marker : handle)
| RemoveLayer (marker : handle)
| FitBounds (bounds : Box) (o : FitBoundsOptions)
| SetView (center : LatLng) (zoom : Q).

(** [L.Map]: the attached layers (Leaflet keeps them by identity), the
    view, and the calls received so far, oldest first. *)
Record LMap := {
  layers : gset handle;
  center : LatLng;
  zoom : Q;
  calls : list MapCall
}.

(** The whole state: the marker objects, the module-level [markerCache]
    and the map surface handed to the two functions. *)
Record World := {
  heap : list Marker;
  markerCache : JsMap.t handle;
  lmap : LMap
}.

Definition with_heap (f : list Marker → list Marker) (w : World) : World :=
  {| heap := f (heap w); markerCache := markerCache w; lmap := lmap w |}.
Definition with_markerCache (f : JsMap.t handle → JsMap.t handle) (w : World) : World :=
  {| heap := heap w; markerCache := f (markerCache w); lmap := lmap w |}.
Definition with_lmap (f : LMap → LMap) (w : World) : World :=
  {| heap := heap w; markerCache := markerCache w; lmap := f (lmap w) |}.

(** What the host platform decides: how a number prints in a template
    literal; Leaflet's projection arithmetic for a box shown in the
    map's container with a padding, that is the largest zoom at which it
    fits and the centre to show it at; and what the configuration of the
    map makes of a requested view: [limitZoom] is Leaflet's [_limitZoom]
    (the zoom rounded to the map's zoom snap and kept between its
    [minZoom] and [maxZoom]), [limitCenter] its [_limitCenter] (the
    centre kept inside the map's [maxBounds] at that zoom). *)
Class Platform := {
  Number_toString : Q → string;
  getBoundsZoom : Box → Z * Z → Q;
  getBoundsCenter : Box → Z * Z → Q → LatLng;
  limitZoom : Q → Q;
  limitCenter : LatLng → Q → LatLng
}.

(* ===================================================================== *)
(** ** Computations over the world *)
(* ===================================================================== *)

Inductive Outcome (A : Type) : Type :=
| Returned (a : A) (w : World)
| Thrown (e : string).
Arguments Returned {A} a w.
Arguments Thrown {A} e.

Definition M (A : Type) : Type := World → Outcome A.

#[global] Instance M_ret : MRet M := λ A a w, Returned a w.
#[global] Instance M_bind : MBind M := λ A B f m w,
  match m w with
  | Returned a w' => f a w'
  | Thrown e => Thrown e
  end.

Definition throw {A} (e : string) : M A := λ _, Thrown e.
Definition getWorld : M World := λ w, Returned w w.
Definition modifyWorld (f : World → World) : M () := λ w, Returned () (f w).

(** [Array.prototype.forEach] whose callback updates the locals it
    captured: the locals are the accumulator [b]. *)
Fixpoint forEach {A B} (l : list A) (body : B → A → M B) (b : B) : M B :=
  match l with
  | [] => mret b
  | x :: rest => b' ← body b x; forEach rest body b'
  end.

(** *** The marker cache *)

Definition markerCache_get (markerId : string) : M (option handle) :=
  w ← getWorld; mret (JsMap.get markerId (markerCache w)).

Definition markerCache_set (markerId : string) (marker : handle) : M () :=
  modifyWorld (with_markerCache (JsMap.set markerId marker)).

Definition markerCache_delete (markerId : string) : M () :=
  modifyWorld (with_markerCache (JsMap.delete markerId)).

(** [Map.prototype.forEach]: the entries in insertion order.  The callback
    of [createMarkers] deletes no entry but the one it is visiting, so
    the entries present when the loop starts are the entries visited. *)
Definition markerCache_forEach (callback : handle → string → M ()) : M () :=
  w ← getWorld;
  forEach (markerCache w) (λ _ e, callback e.2 e.1) ().

(** *** Markers *)

(** [L.marker(latlng, {icon})]: a new object, with no popup and no listener. *)
Definition L_marker (p : LatLng) (i : Icon) : M handle :=
  w ← getWorld;
  modifyWorld (with_heap (λ h, h ++ [{| latlng := p; icon := i; popup := None; listeners := [] |}]));;
  mret (length (heap w)).

Definition updateMarker (marker : handle) (f : Marker → Marker) : M () :=
  w ← getWorld;
  match heap w !! marker with
  | Some m => modifyWorld (with_heap (λ h, <[marker := f m]> h))
  | None => throw "TypeError"
  end.

Definition bindPopup (marker : handle) (popupContent : string) (o : PopupOptions) : M () :=
  updateMarker marker (λ m,
    {| latlng := latlng m; icon := icon m;
       popup := Some {| content := popupContent; options := o |};
       listeners := listeners m |}).

(** [marker.on('click', fn)] *)
Definition on_click (marker : handle) (fn : ClickListener) : M () :=
  updateMarker marker (λ m,
    {| latlng := latlng m; icon := icon m; popup := popup m;
       listeners := listeners m ++ [fn] |}).

Definition getLatLng (marker : handle) : M LatLng :=
  w ← getWorld;
  match heap w !! marker with
  | Some m => mret (latlng m)
  | None => throw "TypeError"
  end.

(** [L.featureGroup(markers).getBounds()] *)
Definition featureGroup_getBounds (markers : list handle) : M LatLngBounds :=
  forEach markers (λ bounds marker, p ← getLatLng marker; mret (extend bounds p)) None.

(** *** The map surface *)

Definition map_hasLayer (marker : handle) : M bool :=
  w ← getWorld; mret (bool_decide (marker ∈ layers (lmap w))).

(** [marker.addTo(map)]: the marker is a layer of the map from then on
    (adding a layer twice leaves one). *)
Definition addTo (marker : handle) : M () :=
  modifyWorld (with_lmap (λ m,
    {| layers := {[marker]} ∪ layers m; center := center m; zoom := zoom m;
       calls := calls m ++ [AddLayer marker] |})).

(** [map.removeLayer(marker)]: no layer of that identity remains. *)
Definition map_removeLayer (marker : handle) : M () :=
  modifyWorld (with_lmap (λ m,
    {| layers := layers m ∖ {[marker]}; center := center m; zoom := zoom m;
       calls := calls m ++ [RemoveLayer marker] |})).

Definition map_getZoom : M Q :=
  w ← getWorld; mret (zoom (lmap w)).

(** Where the map ends when it is sent to a centre and a zoom: Leaflet's
    [setView] limits the zoom first and then the centre at that zoom. *)
Definition viewAt `{Platform} (c : LatLng) (z : Q) (call : MapCall) (m : LMap) : LMap :=
  {| layers := layers m;
     center := limitCenter c (limitZoom z);
     zoom := limitZoom z;
     calls := calls m ++ [call] |}.

(** [map.setView(center, zoom)] *)
Definition map_setView `{Platform} (c : LatLng) (z : Q) : M () :=
  modifyWorld (with_lmap (viewAt c z (SetView c z))).

(** [map.fitBounds(bounds, options)].  Leaflet throws on bounds without
    corners; otherwise it takes the largest zoom at which the box fits
    with the padding, [Math.min(options.maxZoom, zoom)] of it, and sends
    the map there with [setView], which applies the map's own limits. *)
Definition map_fitBounds `{Platform} (bounds : LatLngBounds) (o : FitBoundsOptions) : M () :=
  match bounds with
  | None => throw "Bounds are not valid."
  | Some b =>
      let z := Qmin (maxZoom o) (getBoundsZoom b (padding o)) in
      modifyWorld (with_lmap (viewAt (getBoundsCenter b (padding o) z) z (FitBounds b o)))
  end.

(* ===================================================================== *)
(** ** [MapMarkers.tsx] *)
(* ===================================================================== *)

Record CreateMarkersOptions := {
  warehouses : list Warehouse;
  chauffeurs : list Chauffeur;
  t : string → string;
  onWarehouseClick : option Callback;
  onChauffeurClick : option Callback;
  isMobile : option bool
}.

Section MapMarkers.
Context `{Platform}.

Definition createGoogleMapsLink (lat lng : Q) (name : string) : string :=
  let encodedName := Js.encodeURIComponent name in
  "https://www.google.com/maps/search/?api=1&query=" ++ Number_toString lat ++ ","
    ++ Number_toString lng ++ "&query_place_id=" ++ encodedName.

(** The locals the two loops of [createMarkers] update. *)
Record Locals := { markers : list handle; currentMarkerIds : gset string }.

(** The template literal of the warehouse popup (lines 68 to 76). *)
Definition warehousePopupContent (t : string → string) (isMobile : bool)
    (warehouse : Warehouse) (googleMapsUrl : string) : string :=
  let popupPadding := if isMobile then "12px" else "12px" in
  let popupMinWidth := if isMobile then "280px" else "200px" in
  let popupMaxWidth := if isMobile then "320px" else "250px" in
  let popupFontSize := if isMobile then "14px" else "14px" in
  let popupTitleSize := if isMobile then "16px" else "16px" in
  let popupMargin := if isMobile then "8px" else "8px" in
  let popupLineMargin := if isMobile then "6px" else "4px" in
  String.concat "" [
        Js.nl; "        <div style="; Js.dq; "padding: "; popupPadding;
        "; min-width: "; popupMinWidth; "; max-width: "; popupMaxWidth;
        "; background: white; border-radius: 8px; box-shadow: 0 2px 8px rgba(0,0,0,0.1); overflow: hidden;";
        Js.dq; ">"; Js.nl; "          <h3 style="; Js.dq;
        "font-weight: 600; font-size: "; popupTitleSize; "; margin-bottom: ";
        popupMargin; "; color: #1f2937; word-wrap: break-word;"; Js.dq; ">";
        Warehouse.name warehouse; "</h3>"; Js.nl; "          <p style="; Js.dq;
        "font-size: "; popupFontSize; "; color: #6b7280; margin-bottom: ";
        popupLineMargin; "; word-wrap: break-word;"; Js.dq; "><strong>";
        t "warehouses.company"; ":</strong> "; Warehouse.companyName warehouse; "</p>";
        Js.nl; "          <p style="; Js.dq; "font-size: "; popupFontSize;
        "; color: #6b7280; margin-bottom: "; popupLineMargin;
        "; word-wrap: break-word;"; Js.dq; "><strong>"; t "warehouses.address";
        ":</strong> "; Warehouse.address warehouse; "</p>"; Js.nl;
        "          <p style="; Js.dq; "font-size: "; popupFontSize;
        "; color: #6b7280; margin-bottom: "; popupMargin; "; word-wrap: break-word;";
        Js.dq; "><strong>"; t "warehouses.phone"; ":</strong> ";
        Js.join ", " (Warehouse.phone warehouse); "</p>"; Js.nl; "          <a href=";
        Js.dq; googleMapsUrl; Js.dq; " target="; Js.dq; "_blank"; Js.dq; " style=";
        Js.dq;
        "display: inline-block; background: #4285f4; color: white; padding: 8px 12px; text-decoration: none; border-radius: 4px; font-size: ";
        popupFontSize; "; font-weight: 500; margin-top: 4px;"; Js.dq;
        ">📍 Ouvrir dans Google Maps</a>"; Js.nl; "        </div>"; Js.nl; "      " ].

(** The template literal of the chauffeur popup (lines 126 to 133). *)
Definition chauffeurPopupContent (t : string → string) (isMobile : bool)
    (chauffeur : Chauffeur) (displayName : string) : string :=
  let popupPadding := if isMobile then "12px" else "12px" in
  let popupMinWidth := if isMobile then "280px" else "200px" in
  let popupMaxWidth := if isMobile then "320px" else "250px" in
  let popupFontSize := if isMobile then "14px" else "14px" in
  let popupTitleSize := if isMobile then "16px" else "16px" in
  let popupMargin := if isMobile then "8px" else "8px" in
  let popupLineMargin := if isMobile then "6px" else "4px" in
  String.concat "" [
        Js.nl; "          <div style="; Js.dq; "padding: "; popupPadding;
        "; min-width: "; popupMinWidth; "; max-width: "; popupMaxWidth;
        "; background: white; border-radius: 8px; box-shadow: 0 2px 8px rgba(0,0,0,0.1); overflow: hidden;";
        Js.dq; ">"; Js.nl; "            <h3 style="; Js.dq;
        "font-weight: 600; font-size: "; popupTitleSize; "; margin-bottom: ";
        popupMargin; "; color: #1f2937; word-wrap: break-word;"; Js.dq; ">";
        displayName; "</h3>"; Js.nl; "            <p style="; Js.dq; "font-size: ";
        popupFontSize; "; color: #6b7280; margin-bottom: "; popupLineMargin;
        "; word-wrap: break-word;"; Js.dq; "><strong>"; t "chauffeurs.employeeType";
        ":</strong> "; EmployeeType_toString (Chauffeur.employeeType chauffeur);
        "</p>"; Js.nl; "            <p style="; Js.dq; "font-size: "; popupFontSize;
        "; color: #6b7280; margin-bottom: "; popupLineMargin;
        "; word-wrap: break-word;"; Js.dq; "><strong>"; t "chauffeurs.vehicleType";
        ":</strong> "; Chauffeur.vehicleType chauffeur; "</p>"; Js.nl;
        "            <p style="; Js.dq; "font-size: "; popupFontSize;
        "; color: #6b7280; word-wrap: break-word;"; Js.dq; "><strong>";
        t "chauffeurs.phone"; ":</strong> "; Js.join ", " (Chauffeur.phone chauffeur);
        "</p>"; Js.nl; "          </div>"; Js.nl; "        " ].

Definition popupOptions (isMobile : bool) : PopupOptions :=
  {| maxWidth := if isMobile then 320 else 250;
     closeButton := true;
     autoClose := false;
     autoPan := true;
     offset := (0, -10)%Z;
     className := "custom-popup" |}.

(** The callback of [warehouses.forEach] (lines 50 to 106). *)
Definition warehouseBody (o : CreateMarkersOptions) (isMobile : bool)
    (loc : Locals) (warehouse : Warehouse) : M Locals :=
  let warehouseIconToUse := if isMobile then warehouseIcon else desktopWarehouseIcon in
  let markerId := ("warehouse-" ++ Warehouse.id warehouse)%string in
  let currentMarkerIds := {[markerId]} ∪ currentMarkerIds loc in
  cached ← markerCache_get markerId;
  marker ← match cached with
           | Some marker => mret marker
           | None =>
               marker ← L_marker (Warehouse.coordinates warehouse) warehouseIconToUse;
               let googleMapsUrl :=
                 createGoogleMapsLink (lat (Warehouse.coordinates warehouse))
                   (lng (Warehouse.coordinates warehouse)) (Warehouse.name warehouse) in
               let popupContent :=
                 warehousePopupContent (t o) isMobile warehouse googleMapsUrl in
               bindPopup marker popupContent (popupOptions isMobile);;
               on_click marker (WarehouseClick marker (onWarehouseClick o) warehouse);;
               markerCache_set markerId marker;;
               mret marker
           end;
  attached ← map_hasLayer marker;
  (if negb attached then addTo marker else mret ());;
  mret {| markers := markers loc ++ [marker]; currentMarkerIds := currentMarkerIds |}.

(** The callback of [chauffeurs.forEach] (lines 109 to 164). *)
Definition chauffeurBody (o : CreateMarkersOptions) (isMobile : bool)
    (loc : Locals) (chauffeur : Chauffeur) : M Locals :=
  let chauffeurIconToUse := if isMobile then chauffeurIcon else desktopChauffeurIcon in
  match Chauffeur.coordinates chauffeur with
  | Some coordinates =>
      let markerId := ("chauffeur-" ++ Chauffeur.id chauffeur)%string in
      let currentMarkerIds := {[markerId]} ∪ currentMarkerIds loc in
      cached ← markerCache_get markerId;
      marker ← match cached with
               | Some marker => mret marker
               | None =>
                   let displayName :=
                     if decide (Chauffeur.employeeType chauffeur = externe)
                     then ("TP - " ++ Chauffeur.fullName chauffeur)%string
                     else Chauffeur.fullName chauffeur in
                   marker ← L_marker coordinates chauffeurIconToUse;
                   let popupContent :=
                     chauffeurPopupContent (t o) isMobile chauffeur displayName in
                   bindPopup marker popupContent (popupOptions isMobile);;
                   on_click marker (ChauffeurClick marker (onChauffeurClick o) chauffeur);;
                   markerCache_set markerId marker;;
                   mret marker
               end;
      attached ← map_hasLayer marker;
      (if negb attached then addTo marker else mret ());;
      mret {| markers := markers loc ++ [marker]; currentMarkerIds := currentMarkerIds |}
  | None => mret loc
  end.

(** The callback of [markerCache.forEach] (lines 167 to 172). *)
Definition sweepBody (currentMarkerIds : gset string) (marker : handle) (markerId : string) : M () :=
  if negb (bool_decide (markerId ∈ currentMarkerIds)) then
    map_removeLayer marker;;
    markerCache_delete markerId
  else mret ().

(** [createMarkers] (lines 24 to 175); the [map] of its options is the
    map of the world. *)
Definition createMarkers (o : CreateMarkersOptions) : M (list handle) :=
  let isMobile := default false (isMobile o) in
  let loc := {| markers := []; currentMarkerIds := ∅ |} in
  loc ← forEach (warehouses o) (warehouseBody o isMobile) loc;
  loc ← forEach (chauffeurs o) (chauffeurBody o isMobile) loc;
  markerCache_forEach (sweepBody (currentMarkerIds loc));;
  mret (markers loc).

(** The options both calls of [fitBounds] are given:
    [{ padding: [20, 20], maxZoom: 15 }]. *)
Definition fitOptions : FitBoundsOptions := {| padding := (20, 20)%Z; maxZoom := 15 |}.

(** [fitMapToMarkers] (lines 177 to 205) *)
Definition fitMapToMarkers (markers : list handle) (forceRefresh : option bool) : M () :=
  let forceRefresh := default false forceRefresh in
  if bool_decide (0 < length markers)%nat && forceRefresh then
    bounds ← featureGroup_getBounds markers;
    map_fitBounds bounds fitOptions
  else if bool_decide (0 < length markers)%nat then
    currentZoom ← map_getZoom;
    let defaultZoom := 6%Q in
    if Qlt_le_dec (Qabs (currentZoom - defaultZoom)) 1%Q then
      bounds ← featureGroup_getBounds markers;
      map_fitBounds bounds fitOptions
    else mret ()
  else
    map_setView {| lat := 28.0339; lng := 1.6596 |} 6.

End MapMarkers.

(* ===================================================================== *)
(** ** Notions the properties are stated with *)
(* ===================================================================== *)

Definition warehouseKey (warehouse : Warehouse) : string :=
  "warehouse-" ++ Warehouse.id warehouse.

Definition chauffeurKey (chauffeur : Chauffeur) : string :=
  "chauffeur-" ++ Chauffeur.id chauffeur.

Definition hasCoordinates (chauffeur : Chauffeur) : bool :=
  match Chauffeur.coordinates chauffeur with Some _ => true | None => false end.

(** The composite keys of the records that qualify for a marker: every
    warehouse, then every chauffeur that has a coordinate. *)
Definition targetIds (o : CreateMarkersOptions) : list string :=
  (warehouseKey <$> warehouses o)
    ++ (chauffeurKey <$> filter (λ c, hasCoordinates c = true) (chauffeurs o)).

(** The same call without the chauffeurs that have no coordinate. *)
Definition locatedOnly (o : CreateMarkersOptions) : CreateMarkersOptions :=
  {| warehouses := warehouses o;
     chauffeurs := filter (λ c, hasCoordinates c = true) (chauffeurs o);
     t := t o;
     onWarehouseClick := onWarehouseClick o;
     onChauffeurClick := onChauffeurClick o;
     isMobile := isMobile o |}.

(** The states the program can be in: the cache is a [Map] (one entry per
    key), no marker is cached under two keys, and every cached marker
    exists.  The cache is private to the module and starts empty, so
    these hold at every call ([reachable_wf]). *)
Definition cache_wf (w : World) : Prop :=
  JsMap.wf (markerCache w)
  ∧ NoDup (JsMap.values (markerCache w))
  ∧ Forall (λ marker, marker < length (heap w))%nat (JsMap.values (markerCache w)).

(** The calls a run added to the log of the map. *)
Definition newCalls (w w' : World) (delta : list MapCall) : Prop :=
  calls (lmap w') = calls (lmap w) ++ delta.

(** A point lies in a box; a box lies in a box. *)
Definition inside (b : Box) (p : LatLng) : Prop :=
  (lat (southWest b) <= lat p)%Q ∧ (lat p <= lat (northEast b))%Q
  ∧ (lng (southWest b) <= lng p)%Q ∧ (lng p <= lng (northEast b))%Q.

Definition within (b outer : Box) : Prop :=
  inside outer (southWest b) ∧ inside outer (northEast b).

(** The positions of the markers of a list, when all of them exist. *)
Definition positions (w : World) (markers : list handle) : option (list LatLng) :=
  mapM (λ marker, latlng <$> heap w !! marker) markers.

Definition boundsOf (ps : list LatLng) : LatLngBounds := foldl extend None ps.

(** The heuristic of the passive fit: the zoom is less than one level
    away from the default zoom 6. *)
Definition nearDefaultZoom (w : World) : Prop :=
  (Qabs (zoom (lmap w) - 6) < 1)%Q.

(** *** One step of the two loops, as a function

    Both loop bodies do the same with a key and a way to build the marker:
    take the cached marker or make one and cache it, attach it unless it
    is attached, record it. *)
Definition Target : Type := string * (handle → Marker).

Section Steps.
Context `{Platform}.

Definition warehouseTarget (o : CreateMarkersOptions) (isMobile : bool)
    (warehouse : Warehouse) : Target :=
  (warehouseKey warehouse,
   λ marker,
     {| latlng := Warehouse.coordinates warehouse;
        icon := if isMobile then warehouseIcon else desktopWarehouseIcon;
        popup := Some {|
          content := warehousePopupContent (t o) isMobile warehouse
            (createGoogleMapsLink (lat (Warehouse.coordinates warehouse))
               (lng (Warehouse.coordinates warehouse)) (Warehouse.name warehouse));
          options := popupOptions isMobile |};
        listeners := [WarehouseClick marker (onWarehouseClick o) warehouse] |}).

Definition chauffeurTarget (o : CreateMarkersOptions) (isMobile : bool)
    (chauffeur : Chauffeur) : option Target :=
  match Chauffeur.coordinates chauffeur with
  | Some coordinates =>
      Some (chauffeurKey chauffeur,
            λ marker,
              {| latlng := coordinates;
                 icon := if isMobile then chauffeurIcon else desktopChauffeurIcon;
                 popup := Some {|
                   content := chauffeurPopupContent (t o) isMobile chauffeur
                     (if decide (Chauffeur.employeeType chauffeur = externe)
                      then "TP - " ++ Chauffeur.fullName chauffeur
                      else Chauffeur.fullName chauffeur);
                   options := popupOptions isMobile |};
                 listeners := [ChauffeurClick marker (onChauffeurClick o) chauffeur] |})
  | None => None
  end.

Definition targets (o : CreateMarkersOptions) : list Target :=
  let isMobile := default false (isMobile o) in
  (warehouseTarget o isMobile <$> warehouses o)
    ++ omap (chauffeurTarget o isMobile) (chauffeurs o).

(** The zoom a fit to a box asks the map for: the largest at which the
    box fits with the padding (20, 20), capped at 15. *)
Definition fitZoom (b : Box) : Q := Qmin 15 (getBoundsZoom b (20, 20)%Z).

(** Where a fit to a box leaves the map. *)
Definition fitted (b : Box) (w : World) : World :=
  with_lmap (viewAt (getBoundsCenter b (20, 20)%Z (fitZoom b)) (fitZoom b)
               (FitBounds b fitOptions)) w.

(** A series of calls, one after the other, on the world the previous
    one left. *)
Fixpoint createMarkersEach (os : list CreateMarkersOptions) : M (list (list handle)) :=
  match os with
  | [] => mret []
  | o :: rest =>
      ms ← createMarkers o;
      mss ← createMarkersEach rest;
      mret (ms :: mss)
  end.

(** The worlds a run of the application goes through.  [markerCache] is
    not exported: it is empty when the module is loaded, [createMarkers]
    alone writes it, and whatever else the application does leaves it as
    it is, makes objects and changes the map. *)
Inductive reachable : World → Prop :=
| reachable_start h m :
    reachable {| heap := h; markerCache := JsMap.empty; lmap := m |}
| reachable_createMarkers o w ms w' :
    reachable w → createMarkers o w = Returned ms w' → reachable w'
| reachable_fitMapToMarkers ms forceRefresh w w' :
    reachable w → fitMapToMarkers ms forceRefresh w = Returned () w' → reachable w'
| reachable_elsewhere w w' :
    reachable w →
    markerCache w' = markerCache w →
    (length (heap w) ≤ length (heap w'))%nat →
    reachable w'.

End Steps.

Definition obtain (tg : Target) (w : World) : handle * World :=
  match JsMap.get tg.1 (markerCache w) with
  | Some marker => (marker, w)
  | None =>
      (length (heap w),
       {| heap := heap w ++ [tg.2 (length (heap w))];
          markerCache := markerCache w ++ [(tg.1, length (heap w))];
          lmap := lmap w |})
  end.

Definition attach (marker : handle) (w : World) : World :=
  if bool_decide (marker ∈ layers (lmap w)) then w
  else with_lmap (λ m,
         {| layers := {[marker]} ∪ layers m; center := center m; zoom := zoom m;
            calls := calls m ++ [AddLayer marker] |}) w.

Definition visit (tg : Target) (st : Locals * World) : Locals * World :=
  let '(marker, w1) := obtain tg st.2 in
  ({| markers := markers st.1 ++ [marker];
      currentMarkerIds := {[tg.1]} ∪ currentMarkerIds st.1 |},
   attach marker w1).

Definition visits (tgs : list Target) (st : Locals * World) : Locals * World :=
  foldl (λ st tg, visit tg st) st tgs.

(** The last loop, as a function: the entries whose key is not current
    leave the cache, and their markers leave the map, oldest entry first. *)
Definition staleMarkers (current : gset string) (w : World) : list handle :=
  (filter (λ e, e.1 ∉ current) (markerCache w)).*2.

Definition sweep (current : gset string) (w : World) : World :=
  {| heap := heap w;
     markerCache := filter (λ e, e.1 ∈ current) (markerCache w);
     lmap := {| layers := layers (lmap w) ∖ list_to_set (staleMarkers current w);
                center := center (lmap w);
                zoom := zoom (lmap w);
                calls := calls (lmap w) ++ (RemoveLayer <$> staleMarkers current w) |} |}.

(** The same loop stopped after the entries [l]. *)
Definition sweepOver (current : gset string) (l : JsMap.t handle) (w : World) : World :=
  let stale := (filter (λ e, e.1 ∉ current) l).*2 in
  {| heap := heap w;
     markerCache := filter (λ e, e.1 ∈ current ∨ e.1 ∉ l.*1) (markerCache w);
     lmap := {| layers := layers (lmap w) ∖ list_to_set stale;
                center := center (lmap w);
                zoom := zoom (lmap w);
                calls := calls (lmap w) ++ (RemoveLayer <$> stale) |} |}.

(** A world that grew out of another by the two loops: new objects at the
    end of the heap, new entries at the end of the cache for keys that
    were free, naming the new objects in order, and markers attached that
    were not. *)
Definition grows (w w' : World) : Prop :=
  ∃ news adds att,
    heap w' = heap w ++ news
    ∧ markerCache w' = markerCache w ++ adds
    ∧ adds.*2 = seq (length (heap w)) (length news)
    ∧ NoDup adds.*1
    ∧ (∀ k, k ∈ adds.*1 → JsMap.get k (markerCache w) = None)
    ∧ layers (lmap w') = list_to_set att ∪ layers (lmap w)
    ∧ calls (lmap w') = calls (lmap w) ++ (AddLayer <$> att)
    ∧ (∀ h, h ∈ att → h ∉ layers (lmap w))
    ∧ center (lmap w') = center (lmap w)
    ∧ zoom (lmap w') = zoom (lmap w).

(* ===================================================================== *)
(** ** A map view to run the functions on *)
(* ===================================================================== *)

Module Sample.

(** A map configured with [minZoom: 16] and no other limit, on a platform
    where integers print in decimal (the examples use no other number in
    a link), every box fits at zoom 18 and is shown centred on the middle
    of the box. *)
Definition minZoom16 : Platform := {|
  Number_toString q := pretty (Qnum q / Zpos (Qden q))%Z;
  getBoundsZoom _ _ := 18%Q;
  getBoundsCenter b _ _ :=
    {| lat := (lat (southWest b) + lat (northEast b)) / 2;
       lng := (lng (southWest b) + lng (northEast b)) / 2 |};
  limitZoom z := Qmax 16 z;
  limitCenter c _ := c
|}.

(** A map without limits of its own whose markers lie so far apart that
    their box fits at zoom 6 and no closer. *)
Definition farApart : Platform := {|
  Number_toString q := pretty (Qnum q / Zpos (Qden q))%Z;
  getBoundsZoom _ _ := 6%Q;
  getBoundsCenter b _ _ :=
    {| lat := (lat (southWest b) + lat (northEast b)) / 2;
       lng := (lng (southWest b) + lng (northEast b)) / 2 |};
  limitZoom z := z;
  limitCenter c _ := c
|}.

(** The platform of the examples: the same, with a map that has no limit
    of its own. *)
#[local] Instance platform : Platform := {|
  Number_toString q := pretty (Qnum q / Zpos (Qden q))%Z;
  getBoundsZoom _ _ := 18%Q;
  getBoundsCenter b _ _ :=
    {| lat := (lat (southWest b) + lat (northEast b)) / 2;
       lng := (lng (southWest b) + lng (northEast b)) / 2 |};
  limitZoom z := z;
  limitCenter c _ := c
|}.

Definition depot : Warehouse :=
  {| Warehouse.id := "1"; Warehouse.name := "Dépôt Nord";
     Warehouse.companyId := "c1"; Warehouse.companyName := "Logigrine";
     Warehouse.phone := ["021000000"; "021000001"]; Warehouse.address := "Alger";
     Warehouse.coordinates := {| lat := 36; lng := 3 |};
     Warehouse.createdAt := "2024-01-01" |}.

(** The same warehouse, renamed and moved. *)
Definition depotMoved : Warehouse :=
  {| Warehouse.id := "1"; Warehouse.name := "Dépôt Sud";
     Warehouse.companyId := "c1"; Warehouse.companyName := "Logigrine";
     Warehouse.phone := ["021000000"]; Warehouse.address := "Ghardaïa";
     Warehouse.coordinates := {| lat := 32.5; lng := 3.75 |};
     Warehouse.createdAt := "2024-01-01" |}.

Definition chauffeurAt (coordinates : option LatLng) : Chauffeur :=
  {| Chauffeur.id := "7"; Chauffeur.firstName := "Ali"; Chauffeur.lastName := "B";
     Chauffeur.fullName := "Ali B"; Chauffeur.username := "ali"; Chauffeur.password := "secret";
     Chauffeur.phone := ["0550000000"]; Chauffeur.vehicleType := "camion";
     Chauffeur.employeeType := externe; Chauffeur.isActive := true;
     Chauffeur.createdAt := "2024-01-02"; Chauffeur.coordinates := coordinates |}.

Definition call (ws : list Warehouse) (cs : list Chauffeur) (mobile : option bool)
    : CreateMarkersOptions :=
  {| warehouses := ws; chauffeurs := cs; t := λ key, key;
     onWarehouseClick := Some 0%nat; onChauffeurClick := None; isMobile := mobile |}.

(** The first call: the warehouse and the chauffeur, located. *)
Definition first : CreateMarkersOptions :=
  call [depot] [chauffeurAt (Some {| lat := 35.5; lng := 2 |})] None.

(** A later call: the chauffeur has no coordinate any more. *)
Definition later : CreateMarkersOptions :=
  call [depot] [chauffeurAt None] None.

(** A later call: the warehouse has changed and the view is a phone's. *)
Definition moved : CreateMarkersOptions :=
  call [depotMoved] [chauffeurAt (Some {| lat := 35.5; lng := 2 |})] (Some true).

(** The view when it is mounted, at the default zoom, and zoomed in. *)
Definition start : World :=
  {| heap := []; markerCache := JsMap.empty;
     lmap := {| layers := ∅; center := {| lat := 28.0339; lng := 1.6596 |};
                zoom := 6; calls := [] |} |}.

Definition worldOf {A} (r : Outcome A) : World :=
  match r with Returned _ w => w | Thrown _ => start end.

Definition afterFirst : World := worldOf (createMarkers first start).

(** Two warehouses, at (10, 10) and at (20, 20), on a fresh view. *)
Definition warehouseAt (id : string) (p : LatLng) : Warehouse :=
  {| Warehouse.id := id; Warehouse.name := "Entrepôt"; Warehouse.companyId := "c1";
     Warehouse.companyName := "Logigrine"; Warehouse.phone := []; Warehouse.address := "";
     Warehouse.coordinates := p; Warehouse.createdAt := "2024-01-01" |}.

Definition pair : World :=
  worldOf (createMarkers
             (call [warehouseAt "a" {| lat := 10; lng := 10 |};
                    warehouseAt "b" {| lat := 20; lng := 20 |}] [] None) start).

Definition zoomedIn (w : World) : World :=
  with_lmap (λ m, {| layers := layers m; center := center m; zoom := 10;
                     calls := calls m |}) w.

End Sample.

(* ===================================================================== *)
(** ** Percent-encoding *)
(* ===================================================================== *)

Section JsFacts.
Import Js.

Lemma allChars_app p s1 s2 :
  allChars p (s1 ++ s2) = allChars p s1 && allChars p s2.
Proof.
  induction s1 as [|c s1 IH]; simpl; [done|].
  by rewrite IH, andb_assoc.
Qed.

Lemma encodeByte_safe c : allChars uriSafe (encodeByte c) = true.
Proof. destruct c as [[] [] [] [] [] [] [] []]; reflexivity. Qed.

Lemma encodeURIComponent_safe s : allChars uriSafe (encodeURIComponent s) = true.
Proof.
  induction s as [|c s IH]; simpl; [done|].
  by rewrite allChars_app, encodeByte_safe, IH.
Qed.

Lemma percentDecode_encodeByte c rest :
  percentDecode (encodeByte c ++ rest) = String c <$> percentDecode rest.
Proof.
  destruct c as [[] [] [] [] [] [] [] []];
    match goal with
    | |- context [encodeByte ?c] =>
        let e := eval vm_compute in (encodeByte c) in
        change (encodeByte c) with e
    end;
    cbv [String.append]; simpl; destruct (percentDecode rest); reflexivity.
Qed.

Lemma percentDecode_encodeURIComponent s :
  percentDecode (encodeURIComponent s) = Some s.
Proof.
  induction s as [|c s IH]; simpl; [done|].
  by rewrite percentDecode_encodeByte, IH.
Qed.

End JsFacts.

(* ===================================================================== *)
(** ** The insertion-ordered map *)
(* ===================================================================== *)

Section JsMapFacts.
Context {V : Type}.
Implicit Types (m : JsMap.t V) (k : string) (v : V).

Lemma get_app k m1 m2 :
  JsMap.get k (m1 ++ m2)
  = match JsMap.get k m1 with Some v => Some v | None => JsMap.get k m2 end.
Proof.
  induction m1 as [|[k' v'] m1 IH]; simpl; [done|].
  by case_decide.
Qed.

Lemma get_None k m : JsMap.get k m = None ↔ k ∉ JsMap.keys m.
Proof.
  unfold JsMap.keys. induction m as [|[k' v'] m IH]; simpl.
  - split; [intros _; apply not_elem_of_nil | done].
  - rewrite not_elem_of_cons. case_decide as Hk.
    + split; [done | by intros [? _]].
    + rewrite IH. split; [done | by intros [_ ?]].
Qed.

Lemma get_Some_elem k v m : JsMap.get k m = Some v → (k, v) ∈ m.
Proof.
  induction m as [|[k' v'] m IH]; simpl; [done|].
  case_decide; intros ?; simplify_eq; [left | right; auto].
Qed.

Lemma get_is_Some k m : is_Some (JsMap.get k m) ↔ k ∈ JsMap.keys m.
Proof.
  rewrite <-not_eq_None_Some, get_None.
  split; [apply dec_stable | auto].
Qed.

Lemma elem_get k v m : JsMap.wf m → (k, v) ∈ m → JsMap.get k m = Some v.
Proof.
  unfold JsMap.wf, JsMap.keys.
  induction m as [|[k' v'] m IH]; simpl; intros Hnd Hin.
  - by apply elem_of_nil in Hin.
  - apply NoDup_cons in Hnd as [Hk' Hnd].
    apply elem_of_cons in Hin as [Heq|Hin]; simplify_eq.
    + by rewrite decide_True.
    + rewrite decide_False; [auto|].
      intros ->. apply Hk'. apply list_elem_of_fmap. by exists (k', v).
Qed.

Lemma set_absent k v m : JsMap.get k m = None → JsMap.set k v m = m ++ [(k, v)].
Proof.
  induction m as [|[k' v'] m IH]; simpl; [done|].
  case_decide; [done|]. intros ?. by rewrite IH.
Qed.

Lemma get_filter (P : string → Prop) (dec : ∀ e : string * V, Decision (P e.1)) k m :
  (P k → JsMap.get k (filter (λ e, P e.1) m) = JsMap.get k m)
  ∧ (¬ P k → JsMap.get k (filter (λ e, P e.1) m) = None).
Proof.
  induction m as [|[k' v'] m [IHin IHout]]; [done|].
  rewrite filter_cons. simpl. destruct (decide (P k')) as [HP|HP]; simpl.
  - destruct (decide (k = k')) as [->|]; [|done].
    split; [done|]. by intros [].
  - split; [|done]. intros HPk.
    rewrite decide_False; [auto | by intros ->].
Qed.

Lemma values_injective k1 k2 v m :
  NoDup (JsMap.values m) → (k1, v) ∈ m → (k2, v) ∈ m → k1 = k2.
Proof.
  unfold JsMap.values.
  induction m as [|[k' v'] m IH]; simpl; intros Hnd H1 H2.
  - by apply elem_of_nil in H1.
  - apply NoDup_cons in Hnd as [Hv' Hnd].
    assert (∀ k, (k, v') ∈ m → False) as Hnot.
    { intros k Hk. apply Hv'. apply list_elem_of_fmap. by exists (k, v'). }
    apply elem_of_cons in H1 as [?|H1], H2 as [?|H2]; simplify_eq; eauto.
    + by destruct (Hnot k2).
    + by destruct (Hnot k1).
Qed.

End JsMapFacts.

(* ===================================================================== *)
(** ** The loops of [createMarkers] are the functions [visits] and [sweep] *)
(* ===================================================================== *)

Ltac run :=
  unfold mbind, M_bind, mret, M_ret, markerCache_get, markerCache_set,
    markerCache_delete, map_hasLayer, addTo, map_removeLayer, map_getZoom,
    map_setView, getWorld, modifyWorld, throw; simpl.

Lemma updateMarker_last (f : Marker → Marker) h m c l :
  updateMarker (length h) f {| heap := h ++ [m]; markerCache := c; lmap := l |}
  = Returned () {| heap := h ++ [f m]; markerCache := c; lmap := l |}.
Proof.
  unfold updateMarker. run.
  rewrite list_lookup_middle by done.
  unfold with_heap. simpl.
  rewrite insert_app_r_alt by done.
  by rewrite Nat.sub_diag.
Qed.

(** Making a marker, binding its popup, registering its listener and
    caching it under a free key. *)
Lemma build_run p i popupContent o (fn : handle → ClickListener) markerId w :
  JsMap.get markerId (markerCache w) = None →
  (marker ← L_marker p i;
   bindPopup marker popupContent o;;
   on_click marker (fn marker);;
   markerCache_set markerId marker;;
   mret marker) w
  = Returned (length (heap w))
      {| heap := heap w ++ [{| latlng := p; icon := i;
                               popup := Some {| content := popupContent; options := o |};
                               listeners := [fn (length (heap w))] |}];
         markerCache := markerCache w ++ [(markerId, length (heap w))];
         lmap := lmap w |}.
Proof.
  intros Hfree. destruct w as [h c l]. simpl in *.
  unfold L_marker, bindPopup, on_click. run. unfold with_heap. simpl.
  rewrite updateMarker_last. simpl.
  rewrite updateMarker_last. simpl.
  unfold with_markerCache. simpl.
  by rewrite set_absent.
Qed.

(** The shape the two loop bodies share. *)
Lemma step_run (make : M handle) markerId (build : handle → Marker) loc w :
  (∀ w, JsMap.get markerId (markerCache w) = None →
        make w = Returned (length (heap w))
                   {| heap := heap w ++ [build (length (heap w))];
                      markerCache := markerCache w ++ [(markerId, length (heap w))];
                      lmap := lmap w |}) →
  (cached ← markerCache_get markerId;
   marker ← match cached with
            | Some marker => mret marker
            | None => make
            end;
   attached ← map_hasLayer marker;
   (if negb attached then addTo marker else mret ());;
   mret {| markers := markers loc ++ [marker];
           currentMarkerIds := {[markerId]} ∪ currentMarkerIds loc |}) w
  = Returned (visit (markerId, build) (loc, w)).1 (visit (markerId, build) (loc, w)).2.
Proof.
  intros Hmake. unfold visit, obtain. simpl.
  unfold mbind at 1, M_bind at 1, markerCache_get at 1. run.
  destruct (JsMap.get markerId (markerCache w)) as [marker|] eqn:Hget; simpl.
  - unfold attach. by case_bool_decide.
  - rewrite (Hmake w Hget). simpl.
    unfold attach. simpl. by case_bool_decide.
Qed.

Section Loops.
Context `{Platform}.

Lemma warehouseBody_visit o mob loc warehouse w :
  warehouseBody o mob loc warehouse w
  = Returned (visit (warehouseTarget o mob warehouse) (loc, w)).1
             (visit (warehouseTarget o mob warehouse) (loc, w)).2.
Proof.
  unfold warehouseBody, warehouseTarget.
  apply step_run. intros w' Hfree.
  by apply (build_run _ _ _ _ (λ marker, WarehouseClick marker _ _)).
Qed.

Lemma chauffeurBody_visit o mob loc chauffeur w :
  chauffeurBody o mob loc chauffeur w
  = match chauffeurTarget o mob chauffeur with
    | Some tg => Returned (visit tg (loc, w)).1 (visit tg (loc, w)).2
    | None => Returned loc w
    end.
Proof.
  unfold chauffeurBody, chauffeurTarget.
  destruct (Chauffeur.coordinates chauffeur) as [coordinates|]; [|done].
  apply step_run. intros w' Hfree.
  by apply (build_run _ _ _ _ (λ marker, ChauffeurClick marker _ _)).
Qed.

Lemma forEach_warehouses o mob ws loc w :
  forEach ws (warehouseBody o mob) loc w
  = Returned (visits (warehouseTarget o mob <$> ws) (loc, w)).1
             (visits (warehouseTarget o mob <$> ws) (loc, w)).2.
Proof.
  revert loc w. induction ws as [|warehouse ws IH]; intros loc w; simpl; [done|].
  unfold mbind, M_bind. rewrite warehouseBody_visit, IH.
  by destruct (visit _ _).
Qed.

Lemma forEach_chauffeurs o mob cs loc w :
  forEach cs (chauffeurBody o mob) loc w
  = Returned (visits (omap (chauffeurTarget o mob) cs) (loc, w)).1
             (visits (omap (chauffeurTarget o mob) cs) (loc, w)).2.
Proof.
  revert loc w. induction cs as [|chauffeur cs IH]; intros loc w; simpl; [done|].
  unfold mbind, M_bind. rewrite chauffeurBody_visit.
  destruct (chauffeurTarget o mob chauffeur) as [tg|]; simpl; rewrite IH; [|done].
  by destruct (visit _ _).
Qed.

End Loops.

Lemma filter_ext_in {A} (P Q : A → Prop) `{!∀ x, Decision (P x)} `{!∀ x, Decision (Q x)}
    (l : list A) :
  (∀ x, x ∈ l → (P x ↔ Q x)) → filter P l = filter Q l.
Proof.
  induction l as [|x l IH]; intros Hext; [done|].
  rewrite !filter_cons.
  rewrite IH by (intros y Hy; apply Hext; by right).
  destruct (decide (P x)) as [HP|HP], (decide (Q x)) as [HQ|HQ]; try done.
  - destruct HQ. apply Hext; [left|done].
  - destruct HP. apply Hext; [left|done].
Qed.

Lemma filter_all_in {A} (P : A → Prop) `{!∀ x, Decision (P x)} (l : list A) :
  (∀ x, x ∈ l → P x) → filter P l = l.
Proof.
  induction l as [|x l IH]; intros Hall; [done|].
  rewrite filter_cons_True by (apply Hall; left).
  f_equal. apply IH. intros y Hy. apply Hall. by right.
Qed.

Lemma filter_none_in {A} (P : A → Prop) `{!∀ x, Decision (P x)} (l : list A) :
  (∀ x, x ∈ l → ¬ P x) → filter P l = [].
Proof.
  induction l as [|x l IH]; intros Hnone; [done|].
  rewrite filter_cons_False by (apply Hnone; left).
  apply IH. intros y Hy. apply Hnone. by right.
Qed.

Lemma sweep_loop current l w :
  forEach l (λ _ e, sweepBody current e.2 e.1) () w
  = Returned () (sweepOver current l w).
Proof.
  revert w. induction l as [|[k h] l IH]; intros [hp c [ly ce zo ca]]; simpl.
  - unfold sweepOver. run.
    rewrite app_nil_r, difference_empty_L.
    f_equal. f_equal.
    symmetry. apply filter_all_in. intros e _. right. apply not_elem_of_nil.
  - unfold mbind, M_bind, sweepBody at 1. simpl.
    case_bool_decide as Hcur; simpl; run; rewrite IH; unfold sweepOver;
      unfold with_markerCache, with_lmap, JsMap.delete;
      cbn [heap markerCache lmap layers calls center zoom].
    + rewrite filter_cons_False by (simpl; auto).
      do 2 f_equal. apply list_filter_iff. intros e.
      rewrite fmap_cons, not_elem_of_cons. simpl.
      destruct (decide (e.1 = k)) as [Heq|Hne]; [|naive_solver].
      split; intros _; left; by rewrite Heq.
    + rewrite filter_cons_True by done.
      rewrite !fmap_cons. simpl.
      f_equal. f_equal.
      * rewrite list_filter_filter. apply list_filter_iff. intros e.
        rewrite not_elem_of_cons. naive_solver.
      * f_equal; [set_solver|]. by rewrite <-app_assoc.
Qed.

Lemma sweep_run current w :
  markerCache_forEach (sweepBody current) w = Returned () (sweep current w).
Proof.
  unfold markerCache_forEach. run. rewrite sweep_loop.
  unfold sweepOver, sweep, staleMarkers. do 2 f_equal.
  apply filter_ext_in. intros e He. split; [|auto].
  intros [?|Hno]; [done|]. destruct Hno. apply list_elem_of_fmap. by exists e.
Qed.

Section Run.
Context `{Platform}.

(** [createMarkers] never throws, and what it returns is a function of
    its arguments and the world. *)
Lemma createMarkers_run o w :
  createMarkers o w
  = Returned (markers (visits (targets o) ({| markers := []; currentMarkerIds := ∅ |}, w)).1)
      (sweep (currentMarkerIds (visits (targets o) ({| markers := []; currentMarkerIds := ∅ |}, w)).1)
         (visits (targets o) ({| markers := []; currentMarkerIds := ∅ |}, w)).2).
Proof.
  unfold createMarkers, targets.
  unfold mbind at 1, M_bind at 1. rewrite forEach_warehouses.
  unfold mbind at 1, M_bind at 1. rewrite forEach_chauffeurs.
  unfold mbind at 1, M_bind at 1. rewrite sweep_run.
  unfold visits. rewrite foldl_app.
  by destruct (foldl _ (_, w) (warehouseTarget _ _ <$> _)).
Qed.

End Run.

(* ===================================================================== *)
(** ** What the two loops keep and what they establish *)
(* ===================================================================== *)

Section Keys.
Context `{Platform}.

Lemma targets_keys o : (targets o).*1 = targetIds o.
Proof.
  unfold targets, targetIds. rewrite fmap_app. f_equal.
  - rewrite <-list_fmap_compose. by apply list_fmap_ext.
  - induction (chauffeurs o) as [|c cs IH]; [done|].
    rewrite filter_cons.
    change (omap ?f (c :: cs))
      with (match f c with Some y => y :: omap f cs | None => omap f cs end).
    unfold chauffeurTarget at 1.
    destruct (Chauffeur.coordinates c) as [p|] eqn:Hc.
    + assert (hasCoordinates c = true) as Hhas
        by (unfold hasCoordinates; by rewrite Hc).
      destruct (decide (hasCoordinates c = true)); [|done].
      rewrite !fmap_cons. by rewrite IH.
    + assert (hasCoordinates c ≠ true) as Hhas
        by (unfold hasCoordinates; by rewrite Hc).
      by destruct (decide (hasCoordinates c = true)).
Qed.

End Keys.

Lemma grows_refl w : grows w w.
Proof.
  exists [], [], []. simpl. rewrite !app_nil_r.
  repeat split; try done.
  - constructor.
  - intros k Hk. by apply elem_of_nil in Hk.
  - set_solver.
  - intros h Hh. by apply elem_of_nil in Hh.
Qed.

Lemma grows_trans w1 w2 w3 : grows w1 w2 → grows w2 w3 → grows w1 w3.
Proof.
  intros (n1 & a1 & t1 & Hh1 & Hc1 & Hs1 & Hnd1 & Hfree1 & Hl1 & Hca1 & Hat1 & Hce1 & Hz1)
         (n2 & a2 & t2 & Hh2 & Hc2 & Hs2 & Hnd2 & Hfree2 & Hl2 & Hca2 & Hat2 & Hce2 & Hz2).
  exists (n1 ++ n2), (a1 ++ a2), (t1 ++ t2).
  assert (∀ k, k ∈ a2.*1 → JsMap.get k (markerCache w1) = None ∧ k ∉ a1.*1) as Hfree.
  { intros k Hk. specialize (Hfree2 k Hk). rewrite Hc1, get_app in Hfree2.
    destruct (JsMap.get k (markerCache w1)); [done|].
    split; [done|]. by apply get_None. }
  repeat split.
  - by rewrite Hh2, Hh1, app_assoc.
  - by rewrite Hc2, Hc1, app_assoc.
  - rewrite fmap_app, Hs1, Hs2, Hh1, !length_app. by rewrite seq_app.
  - rewrite fmap_app. apply NoDup_app. split; [done|]. split; [|done].
    intros k Hk1 Hk2. by destruct (Hfree k Hk2).
  - intros k. rewrite fmap_app, elem_of_app. intros [Hk|Hk]; [auto|].
    by destruct (Hfree k Hk).
  - rewrite Hl2, Hl1, list_to_set_app_L. set_solver.
  - by rewrite Hca2, Hca1, fmap_app, app_assoc.
  - intros h. rewrite elem_of_app. intros [Hh|Hh]; [auto|].
    apply Hat2 in Hh. rewrite Hl1 in Hh. set_solver.
  - congruence.
  - congruence.
Qed.

Lemma grows_obtain tg w : grows w (obtain tg w).2.
Proof.
  unfold obtain. destruct (JsMap.get tg.1 (markerCache w)) eqn:Hget; simpl.
  - apply grows_refl.
  - exists [tg.2 (length (heap w))], [(tg.1, length (heap w))], []. simpl.
    rewrite app_nil_r. repeat split; try done.
    + apply NoDup_singleton.
    + intros k Hk. by apply list_elem_of_singleton in Hk as ->.
    + set_solver.
    + intros h Hh. by apply elem_of_nil in Hh.
Qed.

Lemma grows_attach marker w : grows w (attach marker w).
Proof.
  unfold attach. case_bool_decide as Hin; [apply grows_refl|].
  exists [], [], [marker]. simpl. rewrite !app_nil_r.
  repeat split; try done.
  - constructor.
  - intros k Hk. by apply elem_of_nil in Hk.
  - set_solver.
  - intros h Hh. by apply list_elem_of_singleton in Hh as ->.
Qed.

Lemma visit_grows tg loc w : grows w (visit tg (loc, w)).2.
Proof.
  unfold visit. simpl. pose proof (grows_obtain tg w) as Hob.
  destruct (obtain tg w) as [marker w1]. simpl in *.
  eapply grows_trans; [done | apply grows_attach].
Qed.

Lemma visits_cons tg tgs st : visits (tg :: tgs) st = visits tgs (visit tg st).
Proof. done. Qed.

Lemma visits_grows tgs loc w : grows w (visits tgs (loc, w)).2.
Proof.
  revert loc w. induction tgs as [|tg tgs IH]; intros loc w.
  - apply grows_refl.
  - rewrite visits_cons. pose proof (visit_grows tg loc w) as Hv.
    destruct (visit tg (loc, w)) as [loc1 w1]. simpl in *.
    eapply grows_trans; [done | apply IH].
Qed.

Lemma grows_get w w' k marker :
  grows w w' → JsMap.get k (markerCache w) = Some marker →
  JsMap.get k (markerCache w') = Some marker.
Proof.
  intros (n & a & att & _ & Hc & _) Hget. by rewrite Hc, get_app, Hget.
Qed.

Lemma grows_layers w w' marker :
  grows w w' → marker ∈ layers (lmap w) → marker ∈ layers (lmap w').
Proof.
  intros (n & a & att & _ & _ & _ & _ & _ & Hl & _) Hin. rewrite Hl. set_solver.
Qed.

Lemma grows_heap w w' marker m :
  grows w w' → heap w !! marker = Some m → heap w' !! marker = Some m.
Proof.
  intros (n & a & att & Hh & _) Hm. rewrite Hh. by apply lookup_app_l_Some.
Qed.

Lemma grows_wf w w' : grows w w' → cache_wf w → cache_wf w'.
Proof.
  intros (n & a & att & Hh & Hc & Hs & Hnd & Hfree & _) (Hk & Hv & Hb).
  unfold cache_wf, JsMap.wf, JsMap.keys, JsMap.values in *.
  rewrite Hc, Hh, !fmap_app, Hs, length_app. repeat split.
  - apply NoDup_app. split; [done|]. split; [|done].
    intros k Hk1 Hk2. apply Hfree in Hk2. by apply get_None in Hk2.
  - apply NoDup_app. split; [done|]. split; [|apply NoDup_seq].
    intros h Hh1 Hh2. apply elem_of_seq in Hh2.
    rewrite Forall_forall in Hb. apply Hb in Hh1. lia.
  - apply Forall_app. split.
    + eapply Forall_impl; [done|]. simpl. intros; lia.
    + apply Forall_forall. intros h Hh2. apply elem_of_seq in Hh2. lia.
Qed.

Lemma visit_here tg loc w :
  ∃ marker,
    markers (visit tg (loc, w)).1 = markers loc ++ [marker]
    ∧ currentMarkerIds (visit tg (loc, w)).1 = {[tg.1]} ∪ currentMarkerIds loc
    ∧ JsMap.get tg.1 (markerCache (visit tg (loc, w)).2) = Some marker
    ∧ marker ∈ layers (lmap (visit tg (loc, w)).2).
Proof.
  unfold visit, obtain. simpl.
  destruct (JsMap.get tg.1 (markerCache w)) as [marker|] eqn:Hget; simpl.
  - exists marker. repeat split; try done.
    + unfold attach. by case_bool_decide.
    + unfold attach. case_bool_decide; [done|]. simpl. set_solver.
  - exists (length (heap w)). repeat split; try done.
    + unfold attach. simpl.
      assert (JsMap.get tg.1 (markerCache w ++ [(tg.1, length (heap w))])
              = Some (length (heap w))) as Hnew.
      { rewrite get_app, Hget. simpl. by rewrite decide_True. }
      by case_bool_decide.
    + unfold attach. simpl. case_bool_decide; [done|]. simpl. set_solver.
Qed.

Lemma visits_spec tgs loc w :
  ∃ ms,
    markers (visits tgs (loc, w)).1 = markers loc ++ ms
    ∧ currentMarkerIds (visits tgs (loc, w)).1 = list_to_set tgs.*1 ∪ currentMarkerIds loc
    ∧ Forall2 (λ k marker,
        JsMap.get k (markerCache (visits tgs (loc, w)).2) = Some marker
        ∧ marker ∈ layers (lmap (visits tgs (loc, w)).2)) tgs.*1 ms.
Proof.
  revert loc w. induction tgs as [|tg tgs IH]; intros loc w.
  - exists []. simpl. rewrite app_nil_r. repeat split; [set_solver | constructor].
  - rewrite visits_cons.
    destruct (visit_here tg loc w) as (marker & Hms & Hcur & Hget & Hlay).
    destruct (visit tg (loc, w)) as [loc1 w1]. simpl in *.
    destruct (IH loc1 w1) as (ms & Hms' & Hcur' & Hall).
    pose proof (visits_grows tgs loc1 w1) as Hg.
    exists (marker :: ms). repeat split.
    + by rewrite Hms', Hms, <-app_assoc.
    + rewrite Hcur', Hcur. set_solver.
    + constructor; [|done]. split.
      * by eapply grows_get.
      * by eapply grows_layers.
Qed.

(** When every key is cached and its marker attached, the loops change
    nothing. *)
Lemma visits_stable tgs loc w :
  (∀ k, k ∈ tgs.*1 →
        ∃ marker, JsMap.get k (markerCache w) = Some marker
                  ∧ marker ∈ layers (lmap w)) →
  (visits tgs (loc, w)).2 = w.
Proof.
  revert loc. induction tgs as [|tg tgs IH]; intros loc Hall; [done|].
  rewrite visits_cons.
  destruct (Hall tg.1) as (marker & Hget & Hlay); [left|].
  assert (visit tg (loc, w)
          = ({| markers := markers loc ++ [marker];
                currentMarkerIds := {[tg.1]} ∪ currentMarkerIds loc |}, w)) as ->.
  { unfold visit, obtain. simpl. rewrite Hget. unfold attach.
    by rewrite bool_decide_eq_true_2. }
  apply IH. intros k Hk. apply Hall. by right.
Qed.

(* ===================================================================== *)
(** ** What the last loop does *)
(* ===================================================================== *)

Lemma sweep_get_in current w k :
  k ∈ current →
  JsMap.get k (markerCache (sweep current w)) = JsMap.get k (markerCache w).
Proof. unfold sweep. simpl. apply (get_filter (λ k, k ∈ current)). Qed.

Lemma sweep_get_out current w k :
  k ∉ current → JsMap.get k (markerCache (sweep current w)) = None.
Proof. unfold sweep. simpl. apply (get_filter (λ k, k ∈ current)). Qed.

Lemma elem_of_staleMarkers current w marker :
  marker ∈ staleMarkers current w ↔ ∃ k, (k, marker) ∈ markerCache w ∧ k ∉ current.
Proof.
  unfold staleMarkers. rewrite list_elem_of_fmap. split.
  - intros ([k h] & -> & Hin). apply list_elem_of_filter in Hin as [Hk Hin]. eauto.
  - intros (k & Hin & Hk). exists (k, marker). split; [done|].
    by apply list_elem_of_filter.
Qed.

Lemma sweep_layers current w marker :
  marker ∈ layers (lmap (sweep current w))
  ↔ marker ∈ layers (lmap w) ∧ marker ∉ staleMarkers current w.
Proof. unfold sweep. simpl. set_solver. Qed.

Lemma sweep_id current w :
  (∀ k, k ∈ JsMap.keys (markerCache w) → k ∈ current) → sweep current w = w.
Proof.
  intros Hall. unfold sweep, staleMarkers.
  rewrite filter_all_in, filter_none_in.
  - simpl. rewrite app_nil_r, difference_empty_L. by destruct w as [? ? []].
  - intros e He Hno. apply Hno, Hall, list_elem_of_fmap. by exists e.
  - intros e He. apply Hall, list_elem_of_fmap. by exists e.
Qed.

Lemma NoDup_fmap_filter {A B} (f : A → B) (P : A → Prop) `{!∀ x, Decision (P x)}
    (l : list A) :
  NoDup (f <$> l) → NoDup (f <$> filter P l).
Proof.
  induction l as [|x l IH]; [done|].
  rewrite fmap_cons, NoDup_cons, filter_cons. intros [Hx Hnd].
  destruct (decide (P x)); [|auto].
  rewrite fmap_cons. apply NoDup_cons. split; [|auto].
  intros Hin. apply Hx.
  apply list_elem_of_fmap in Hin as (y & -> & Hy).
  apply list_elem_of_filter in Hy as [_ Hy].
  apply list_elem_of_fmap. by exists y.
Qed.

Lemma sweep_keys_wf current w :
  JsMap.wf (markerCache w) → JsMap.wf (markerCache (sweep current w)).
Proof. apply NoDup_fmap_filter. Qed.

Lemma sweep_wf current w : cache_wf w → cache_wf (sweep current w).
Proof.
  intros (Hk & Hv & Hb). repeat split.
  - by apply sweep_keys_wf.
  - by apply NoDup_fmap_filter.
  - unfold sweep, JsMap.values in *. simpl.
    rewrite Forall_forall in Hb. apply Forall_forall. intros h Hh. apply Hb.
    apply list_elem_of_fmap in Hh as (e & -> & He).
    apply list_elem_of_filter in He as [_ He].
    apply list_elem_of_fmap. by exists e.
Qed.

Lemma grows_keys_wf w w' :
  grows w w' → JsMap.wf (markerCache w) → JsMap.wf (markerCache w').
Proof.
  intros (n & a & att & _ & Hc & _ & Hnd & Hfree & _) Hk.
  unfold JsMap.wf, JsMap.keys in *. rewrite Hc, fmap_app.
  apply NoDup_app. split; [done|]. split; [|done].
  intros k Hk1 Hk2. apply Hfree in Hk2. by apply get_None in Hk2.
Qed.

Lemma Forall2_elem_l {A B} (P : A → B → Prop) (l : list A) (k : list B) :
  Forall2 P l k → Forall2 (λ x y, x ∈ l ∧ P x y) l k.
Proof.
  induction 1 as [|x y l k HP _ IH]; constructor.
  - split; [left | done].
  - eapply Forall2_impl; [done|]. intros x' y' [? ?]. split; [by right | done].
Qed.

Lemma Forall2_elem_r {A B} (P : A → B → Prop) (l : list A) (k : list B) y :
  Forall2 P l k → y ∈ k → ∃ x, x ∈ l ∧ P x y.
Proof.
  induction 1 as [|x y' l k HP _ IH]; intros Hy.
  - by apply elem_of_nil in Hy.
  - apply elem_of_cons in Hy as [->|Hy].
    + exists x. split; [left | done].
    + destruct (IH Hy) as (x' & ? & ?). exists x'. split; [by right | done].
Qed.

Lemma Forall2_elem_of_l {A B} (P : A → B → Prop) (l : list A) (k : list B) x :
  Forall2 P l k → x ∈ l → ∃ y, y ∈ k ∧ P x y.
Proof.
  induction 1 as [|x' y l k HP _ IH]; intros Hx.
  - by apply elem_of_nil in Hx.
  - apply elem_of_cons in Hx as [->|Hx].
    + exists y. split; [left | done].
    + destruct (IH Hx) as (y' & ? & ?). exists y'. split; [by right | done].
Qed.

(* ===================================================================== *)
(** ** One pass of [createMarkers] *)
(* ===================================================================== *)

Section Pass.
Context `{Platform}.

(** A pass returns; the world it leaves is the world grown by the two
    loops and then swept, and the list it returns names, key by key, the
    markers the cache holds, all of them attached. *)
Lemma createMarkers_spec o w :
  ∃ ms w1,
    createMarkers o w = Returned ms (sweep (list_to_set (targetIds o)) w1)
    ∧ grows w w1
    ∧ Forall2 (λ k marker,
        JsMap.get k (markerCache w1) = Some marker
        ∧ marker ∈ layers (lmap w1)) (targetIds o) ms.
Proof.
  rewrite createMarkers_run.
  set (loc0 := {| markers := []; currentMarkerIds := ∅ |}).
  destruct (visits_spec (targets o) loc0 w) as (ms & Hms & Hcur & Hall).
  pose proof (visits_grows (targets o) loc0 w) as Hg.
  destruct (visits (targets o) (loc0, w)) as [loc1 w1]. simpl in *.
  rewrite targets_keys in *. rewrite union_empty_r_L in Hcur.
  exists ms, w1. by rewrite Hms, Hcur.
Qed.

Lemma cache_wf_start h m : cache_wf {| heap := h; markerCache := JsMap.empty; lmap := m |}.
Proof. repeat split; constructor. Qed.

Lemma createMarkers_wf o w ms w' :
  cache_wf w → createMarkers o w = Returned ms w' → cache_wf w'.
Proof.
  intros Hwf Hrun.
  destruct (createMarkers_spec o w) as (ms' & w1 & Heq & Hg & _).
  rewrite Heq in Hrun. injection Hrun as <- <-.
  apply sweep_wf. by eapply grows_wf.
Qed.

End Pass.

(* ===================================================================== *)
(** ** Properties of [createMarkers] *)
(* ===================================================================== *)

Lemma warehouseKey_inj w1 w2 :
  warehouseKey w1 = warehouseKey w2 → Warehouse.id w1 = Warehouse.id w2.
Proof. unfold warehouseKey. cbv [String.append]. congruence. Qed.

Lemma chauffeurKey_inj c1 c2 :
  chauffeurKey c1 = chauffeurKey c2 → Chauffeur.id c1 = Chauffeur.id c2.
Proof. unfold chauffeurKey. cbv [String.append]. congruence. Qed.

Lemma warehouseKey_chauffeurKey warehouse chauffeur :
  warehouseKey warehouse ≠ chauffeurKey chauffeur.
Proof. unfold warehouseKey, chauffeurKey. cbv [String.append]. congruence. Qed.

Section Synchronize.
Context `{Platform}.

(** C1 (key-set convergence).  After a pass the keys of the cache are
    exactly the composite keys of the input warehouses and of the input
    chauffeurs that have a coordinate: no other entry survives, and the
    cache is still a map, so no key is bound to two markers. *)
Theorem createMarkers_key_set o w :
  JsMap.wf (markerCache w) →
  ∃ ms w',
    createMarkers o w = Returned ms w'
    ∧ (∀ k, k ∈ JsMap.keys (markerCache w') ↔ k ∈ targetIds o)
    ∧ JsMap.wf (markerCache w')
    ∧ (∀ k m1 m2, (k, m1) ∈ markerCache w' → (k, m2) ∈ markerCache w' → m1 = m2).
Proof.
  intros Hwf.
  destruct (createMarkers_spec o w) as (ms & w1 & Hrun & Hg & Hall).
  exists ms, (sweep (list_to_set (targetIds o)) w1).
  assert (JsMap.wf (markerCache (sweep (list_to_set (targetIds o)) w1))) as Hwf'.
  { apply sweep_keys_wf. by eapply grows_keys_wf. }
  repeat split; try done.
  - intros Hk. apply get_is_Some in Hk as [marker Hget].
    destruct (decide (k ∈ targetIds o)) as [|Hout]; [done|].
    rewrite sweep_get_out in Hget; [done|]. by rewrite elem_of_list_to_set.
  - intros Hk. apply get_is_Some.
    rewrite sweep_get_in by (by rewrite elem_of_list_to_set).
    destruct (Forall2_elem_of_l _ _ _ _ Hall Hk) as (marker & _ & Hget & _).
    by exists marker.
  - intros k m1 m2 H1 H2.
    apply (elem_get _ _ _ Hwf') in H1, H2. congruence.
Qed.

(** C8 (what is returned).  The returned list is the markers the cache
    holds for the warehouses, in the order of the input, followed by the
    markers it holds for the chauffeurs that have a coordinate, in the
    order of the input: one marker per such record, and nothing else. *)
Theorem createMarkers_returns_targets o w :
  ∃ msW msC w',
    createMarkers o w = Returned (msW ++ msC) w'
    ∧ Forall2 (λ warehouse marker,
        JsMap.get (warehouseKey warehouse) (markerCache w') = Some marker)
        (warehouses o) msW
    ∧ Forall2 (λ chauffeur marker,
        JsMap.get (chauffeurKey chauffeur) (markerCache w') = Some marker)
        (filter (λ c, hasCoordinates c = true) (chauffeurs o)) msC.
Proof.
  destruct (createMarkers_spec o w) as (ms & w1 & Hrun & Hg & Hall).
  apply Forall2_elem_l in Hall.
  assert (Forall2 (λ k marker,
            JsMap.get k (markerCache (sweep (list_to_set (targetIds o)) w1)) = Some marker)
            (targetIds o) ms) as Hall'.
  { eapply Forall2_impl; [done|]. cbv beta. intros k marker (Hk & Hget & _).
    by rewrite sweep_get_in by (by rewrite elem_of_list_to_set). }
  unfold targetIds in Hall' at 2.
  apply Forall2_app_inv_l in Hall' as (msW & msC & HW & HC & ->).
  apply Forall2_fmap_l in HW, HC.
  by exists msW, msC, (sweep (list_to_set (targetIds o)) w1).
Qed.

(** C2 (idempotence).  From any state the program can be in, a second
    call with the same arguments returns the same markers and leaves the
    whole world as the first call left it: no marker is made (the heap is
    the same), the map received no call (its log is the same), and the
    cache is the same. *)
Theorem createMarkers_idempotent o w :
  cache_wf w →
  ∃ ms w',
    createMarkers o w = Returned ms w'
    ∧ createMarkers o w' = Returned ms w'.
Proof.
  intros Hwf.
  destruct (createMarkers_spec o w) as (ms & w1 & Hrun & Hg & Hall).
  set (current := list_to_set (targetIds o) : gset string) in *.
  exists ms, (sweep current w1). split; [done|].
  pose proof (grows_wf _ _ Hg Hwf) as (_ & Hinj & _).
  apply Forall2_elem_l in Hall.
  (* after the first pass every target is cached and attached *)
  assert (Forall2 (λ k marker,
            JsMap.get k (markerCache (sweep current w1)) = Some marker
            ∧ marker ∈ layers (lmap (sweep current w1))) (targetIds o) ms) as Hall'.
  { eapply Forall2_impl; [done|]. cbv beta. intros k marker (Hk & Hget & Hlay).
    assert (k ∈ current) as Hcur by (unfold current; by apply elem_of_list_to_set).
    split; [by rewrite sweep_get_in|].
    apply sweep_layers. split; [done|].
    intros (k' & Hin' & Hk')%elem_of_staleMarkers.
    apply get_Some_elem in Hget.
    by rewrite (values_injective _ _ _ _ Hinj Hget Hin') in Hcur. }
  rewrite createMarkers_run.
  set (loc0 := {| markers := []; currentMarkerIds := ∅ |}).
  destruct (visits_spec (targets o) loc0 (sweep current w1)) as (ms2 & Hms2 & Hcur2 & Hall2).
  assert ((visits (targets o) (loc0, sweep current w1)).2 = sweep current w1) as Hsame.
  { apply visits_stable. rewrite targets_keys. intros k Hk.
    destruct (Forall2_elem_of_l _ _ _ _ Hall' Hk) as (marker & _ & ? & ?).
    by exists marker. }
  rewrite Hsame in *. rewrite targets_keys in *.
  rewrite Hms2, Hcur2. subst loc0. cbn [markers currentMarkerIds app].
  rewrite union_empty_r_L. fold current.
  f_equal.
  - eapply Forall2_unique; [exact Hall2 | exact Hall' |].
    intros k m1 m2 [? _] [? _]. congruence.
  - apply sweep_id. intros k Hk. apply get_is_Some in Hk as [marker Hget].
    destruct (decide (k ∈ current)) as [|Hout]; [done|].
    by rewrite sweep_get_out in Hget.
Qed.

(** C3 (removal).  A marker cached under a key that no input record
    yields any more (its chauffeur left the list, or has no coordinate
    now) is detached from the map, its key leaves the cache, and it is
    not among the returned markers. *)
Theorem createMarkers_removes_absent o w k marker :
  cache_wf w →
  JsMap.get k (markerCache w) = Some marker →
  k ∉ targetIds o →
  ∃ ms w' delta,
    createMarkers o w = Returned ms w'
    ∧ newCalls w w' delta
    ∧ RemoveLayer marker ∈ delta
    ∧ (marker ∉ layers (lmap w'))
    ∧ JsMap.get k (markerCache w') = None
    ∧ marker ∉ ms.
Proof.
  intros Hwf Hget Hout.
  destruct (createMarkers_spec o w) as (ms & w1 & Hrun & Hg & Hall).
  set (current := list_to_set (targetIds o) : gset string) in *.
  assert (k ∉ current) as Hcur by (unfold current; by rewrite elem_of_list_to_set).
  pose proof (grows_wf _ _ Hg Hwf) as (_ & Hinj & _).
  pose proof (get_Some_elem _ _ _ (grows_get _ _ _ _ Hg Hget)) as Hin1.
  assert (marker ∈ staleMarkers current w1) as Hstale.
  { apply elem_of_staleMarkers. by exists k. }
  destruct Hg as (n & a & att & _ & _ & _ & _ & _ & _ & Hcalls & _).
  exists ms, (sweep current w1),
    ((AddLayer <$> att) ++ (RemoveLayer <$> staleMarkers current w1)).
  repeat split; try done.
  - unfold newCalls, sweep. simpl. by rewrite Hcalls, app_assoc.
  - apply elem_of_app. right. apply list_elem_of_fmap. by exists marker.
  - rewrite sweep_layers. by intros [_ ?].
  - by apply sweep_get_out.
  - intros Hms.
    destruct (Forall2_elem_r _ _ _ _ Hall Hms) as (k' & Hk' & Hget' & _).
    apply get_Some_elem in Hget'.
    rewrite (values_injective _ _ _ _ Hinj Hin1 Hget') in Hout. done.
Qed.

(** C10 (reuse).  A record whose key is cached when the pass starts gets
    the cached marker: the cache still binds the key to it, the marker
    object (position, icon, popup, listeners) is the object it was, and it
    is the marker returned at the place of the record, whatever the
    record, the callbacks and the display mode of this call are. *)
Theorem createMarkers_reuses_cached o w k marker :
  k ∈ targetIds o →
  JsMap.get k (markerCache w) = Some marker →
  ∃ ms w',
    createMarkers o w = Returned ms w'
    ∧ JsMap.get k (markerCache w') = Some marker
    ∧ (∀ m, heap w !! marker = Some m → heap w' !! marker = Some m)
    ∧ (∀ i, targetIds o !! i = Some k → ms !! i = Some marker).
Proof.
  intros Hk Hget.
  destruct (createMarkers_spec o w) as (ms & w1 & Hrun & Hg & Hall).
  exists ms, (sweep (list_to_set (targetIds o)) w1).
  pose proof (grows_get _ _ _ _ Hg Hget) as Hget1.
  repeat split; try done.
  - by rewrite sweep_get_in by (by rewrite elem_of_list_to_set).
  - intros m Hm. simpl. by eapply grows_heap.
  - intros i Hi.
    destruct (Forall2_lookup_l _ _ _ _ _ Hall Hi) as (marker' & Hi' & Hget' & _).
    congruence.
Qed.

Lemma omap_cons_eq {A B} (f : A → option B) x l :
  omap f (x :: l) = match f x with Some y => y :: omap f l | None => omap f l end.
Proof. done. Qed.

Lemma targets_locatedOnly o : targets (locatedOnly o) = targets o.
Proof.
  unfold targets. simpl. f_equal.
  set (f := chauffeurTarget _ _).
  change (chauffeurTarget o (default false (isMobile o))) with f.
  assert (∀ c, (hasCoordinates c = true ∧ is_Some (f c))
               ∨ (hasCoordinates c ≠ true ∧ f c = None)) as Hcase.
  { intros c. unfold f, hasCoordinates, chauffeurTarget.
    destruct (Chauffeur.coordinates c); [left; eauto | right; done]. }
  induction (chauffeurs o) as [|c cs IH]; [done|].
  rewrite filter_cons.
  destruct (Hcase c) as [[Hhas [tg Htg]]|[Hhas Htg]];
    destruct (decide (hasCoordinates c = true)); try done;
    rewrite !omap_cons_eq, Htg; by rewrite ?IH.
Qed.

Lemma createMarkers_locatedOnly o w :
  createMarkers (locatedOnly o) w = createMarkers o w.
Proof. by rewrite !createMarkers_run, targets_locatedOnly. Qed.

Lemma createMarkersEach_locatedOnly os w :
  createMarkersEach (locatedOnly <$> os) w = createMarkersEach os w.
Proof.
  revert w. induction os as [|o os IH]; intros w; [done|].
  rewrite fmap_cons. simpl. unfold mbind, M_bind.
  rewrite createMarkers_locatedOnly.
  destruct (createMarkers o w) as [ms w1|]; [|done].
  by rewrite IH.
Qed.

Lemma createMarkersEach_snoc os o w :
  ∃ mss w1 ms w',
    createMarkersEach os w = Returned mss w1
    ∧ length mss = length os
    ∧ createMarkers o w1 = Returned ms w'
    ∧ createMarkersEach (os ++ [o]) w = Returned (mss ++ [ms]) w'.
Proof.
  revert w. induction os as [|o1 os IH]; intros w.
  - destruct (createMarkers_spec o w) as (ms & w1 & Hrun & _).
    exists [], w, ms, (sweep (list_to_set (targetIds o)) w1).
    repeat split; try done.
    simpl. unfold mbind, M_bind. by rewrite Hrun.
  - destruct (createMarkers_spec o1 w) as (ms1 & w1 & Hrun1 & _).
    destruct (IH (sweep (list_to_set (targetIds o1)) w1))
      as (mss & w2 & ms & w' & Hmss & Hlen & Hms & Hall).
    exists (ms1 :: mss), w2, ms, w'. repeat split; try done.
    + simpl. unfold mbind, M_bind. by rewrite Hrun1, Hmss.
    + simpl. by rewrite Hlen.
    + simpl. unfold mbind, M_bind. by rewrite Hrun1, Hall.
Qed.

(** C4 (exclusion).  After any number of calls, a call in which a
    chauffeur has no coordinate passes it over without an error: the
    series returns, and returns and leaves what the series without the
    chauffeurs that have no coordinate returns and leaves; the list of the
    call has one marker per warehouse and per chauffeur with a coordinate;
    and the cache has no entry under the key of that chauffeur, unless
    another record of the call bears its key with a coordinate. *)
Theorem createMarkers_skips_unlocated before o w chauffeur :
  chauffeur ∈ chauffeurs o →
  Chauffeur.coordinates chauffeur = None →
  ∃ mss ms w',
    createMarkersEach (before ++ [o]) w = Returned (mss ++ [ms]) w'
    ∧ createMarkersEach (locatedOnly <$> (before ++ [o])) w = Returned (mss ++ [ms]) w'
    ∧ length mss = length before
    ∧ length ms = (length (warehouses o)
                   + length (filter (λ c, hasCoordinates c = true) (chauffeurs o)))%nat
    ∧ ((∀ c, c ∈ chauffeurs o → Chauffeur.id c = Chauffeur.id chauffeur →
             Chauffeur.coordinates c = None) →
       chauffeurKey chauffeur ∉ JsMap.keys (markerCache w')).
Proof.
  intros Hin Hnone.
  destruct (createMarkersEach_snoc before o w)
    as (mss & w0 & ms & w' & _ & Hlen & Hlast & Hrun).
  destruct (createMarkers_spec o w0) as (ms' & w1 & Hrun' & Hg & Hall).
  rewrite Hrun' in Hlast. injection Hlast as -> <-.
  exists mss, ms, (sweep (list_to_set (targetIds o)) w1).
  split; [done|]. split; [by rewrite createMarkersEach_locatedOnly|].
  split; [done|]. split.
  - apply Forall2_length in Hall. rewrite <-Hall.
    unfold targetIds. by rewrite length_app, !length_fmap.
  - intros Hsame. apply get_None. apply sweep_get_out.
    rewrite elem_of_list_to_set. unfold targetIds.
    rewrite elem_of_app, !list_elem_of_fmap.
    intros [(wh & Heq & _)|(c & Heq & Hc)].
    + symmetry in Heq. by apply warehouseKey_chauffeurKey in Heq.
    + apply list_elem_of_filter in Hc as [Hhas Hc].
      symmetry in Heq. apply chauffeurKey_inj in Heq.
      unfold hasCoordinates in Hhas. by rewrite (Hsame c Hc) in Hhas.
Qed.

End Synchronize.

(* ===================================================================== *)
(** ** The bounds of a group of markers *)
(* ===================================================================== *)

Lemma inside_extend_new bounds p :
  ∃ b, extend bounds p = Some b ∧ inside b p.
Proof.
  destruct bounds as [b|]; simpl; eexists; (split; [done|]); unfold inside; simpl.
  - repeat split; auto using Q.le_min_l, Q.le_max_l.
  - repeat split; apply Qle_refl.
Qed.

Lemma inside_extend_old b p q :
  inside b q →
  ∃ b', extend (Some b) p = Some b' ∧ inside b' q.
Proof.
  intros (H1 & H2 & H3 & H4). simpl. eexists. split; [done|].
  unfold inside. simpl. repeat split.
  - eapply Qle_trans; [apply Q.le_min_r | done].
  - eapply Qle_trans; [done | apply Q.le_max_r].
  - eapply Qle_trans; [apply Q.le_min_r | done].
  - eapply Qle_trans; [done | apply Q.le_max_r].
Qed.

Lemma within_extend b p outer :
  within b outer → inside outer p →
  ∃ b', extend (Some b) p = Some b' ∧ within b' outer.
Proof.
  intros [(S1 & S2 & S3 & S4) (N1 & N2 & N3 & N4)] (P1 & P2 & P3 & P4).
  simpl. eexists. split; [done|].
  unfold within, inside. simpl. repeat split.
  - by apply Q.min_glb.
  - eapply Qle_trans; [apply Q.le_min_l | done].
  - by apply Q.min_glb.
  - eapply Qle_trans; [apply Q.le_min_l | done].
  - eapply Qle_trans; [done | apply Q.le_max_l].
  - by apply Q.max_lub.
  - eapply Qle_trans; [done | apply Q.le_max_l].
  - by apply Q.max_lub.
Qed.

Lemma bounds_fold ps : ∀ b0 (seen : list LatLng),
  (∀ q, q ∈ seen → inside b0 q) →
  (∀ outer, (∀ q, q ∈ seen → inside outer q) → within b0 outer) →
  ∃ b, foldl extend (Some b0) ps = Some b
       ∧ (∀ q, q ∈ seen ++ ps → inside b q)
       ∧ (∀ outer, (∀ q, q ∈ seen ++ ps → inside outer q) → within b outer).
Proof.
  induction ps as [|p ps IH]; intros b0 seen Hin Hmin.
  - exists b0. rewrite app_nil_r. done.
  - simpl foldl.
    destruct (IH (default b0 (extend (Some b0) p)) (seen ++ [p])) as (b & Hb & Hin' & Hmin').
    + intros q [Hq|Hq%list_elem_of_singleton]%elem_of_app.
      * destruct (inside_extend_old b0 p q (Hin q Hq)) as (b' & -> & ?). done.
      * subst q. destruct (inside_extend_new (Some b0) p) as (b' & -> & ?). done.
    + intros outer Hall.
      destruct (within_extend b0 p outer) as (b' & -> & ?); [| |done].
      * apply Hmin. intros q Hq. apply Hall, elem_of_app. by left.
      * apply Hall, elem_of_app. right. by apply list_elem_of_singleton.
    + exists b. rewrite <-app_assoc in Hin', Hmin'. by split.
Qed.

(** The bounds of a non-empty list of points are the smallest box that
    holds them all. *)
Lemma boundsOf_smallest ps :
  ps ≠ [] →
  ∃ b, boundsOf ps = Some b
       ∧ (∀ q, q ∈ ps → inside b q)
       ∧ (∀ outer, (∀ q, q ∈ ps → inside outer q) → within b outer).
Proof.
  destruct ps as [|p ps]; [done|]. intros _. unfold boundsOf. simpl foldl.
  apply (bounds_fold ps {| southWest := p; northEast := p |} [p]).
  - intros q ->%list_elem_of_singleton. unfold inside. simpl.
    repeat split; apply Qle_refl.
  - intros outer Hall. split; apply Hall; by apply list_elem_of_singleton.
Qed.

Lemma positions_cons w marker ms :
  positions w (marker :: ms)
  = match heap w !! marker, positions w ms with
    | Some m, Some ps => Some (latlng m :: ps)
    | _, _ => None
    end.
Proof.
  unfold positions. simpl.
  destruct (heap w !! marker); simpl; [|done].
  by destruct (mapM _ ms).
Qed.

Lemma positions_total w ms :
  (∀ marker, marker ∈ ms → is_Some (heap w !! marker)) →
  ∃ ps, positions w ms = Some ps
        ∧ length ps = length ms
        ∧ (∀ p, p ∈ ps ↔ ∃ marker m,
               marker ∈ ms ∧ heap w !! marker = Some m ∧ latlng m = p).
Proof.
  induction ms as [|marker ms IH]; intros Hall.
  - exists []. repeat split; [by intros ?%elem_of_nil|].
    by intros (? & ? & ?%elem_of_nil & _).
  - destruct (Hall marker) as [m Hm]; [left|].
    destruct IH as (ps & Hps & Hlen & Hel); [intros; apply Hall; by right|].
    exists (latlng m :: ps). rewrite positions_cons, Hm, Hps.
    repeat split; [simpl; by rewrite Hlen| |].
    + intros [->|Hp]%elem_of_cons.
      * exists marker, m. repeat split; [left|done].
      * apply Hel in Hp as (marker' & m' & ? & ? & ?).
        exists marker', m'. repeat split; [by right | done | done].
    + intros (marker' & m' & [->|Hin]%elem_of_cons & Hm' & <-).
      * simplify_eq. left.
      * right. apply Hel. by exists marker', m'.
Qed.

Lemma getBounds_fold w ms : ∀ ps bounds,
  positions w ms = Some ps →
  forEach ms (λ bounds marker, p ← getLatLng marker; mret (extend bounds p)) bounds w
  = Returned (foldl extend bounds ps) w.
Proof.
  induction ms as [|marker ms IH]; intros ps bounds Hps.
  - by injection Hps as <-.
  - rewrite positions_cons in Hps.
    destruct (heap w !! marker) as [m|] eqn:Hm; [|done].
    destruct (positions w ms) as [ps'|]; [|done].
    injection Hps as <-. simpl.
    unfold mbind at 1, M_bind at 1, getLatLng at 1. run. rewrite Hm. simpl.
    by apply IH.
Qed.

Lemma getBounds_run w ms ps :
  positions w ms = Some ps →
  featureGroup_getBounds ms w = Returned (boundsOf ps) w.
Proof. apply getBounds_fold. Qed.

(* ===================================================================== *)
(** ** Properties of [fitMapToMarkers] *)
(* ===================================================================== *)

Section Fit.
Context `{Platform}.

(** The fit both non-empty branches perform. *)
Lemma fit_run ms w :
  ms ≠ [] →
  (∀ marker, marker ∈ ms → is_Some (heap w !! marker)) →
  ∃ b,
    (bounds ← featureGroup_getBounds ms; map_fitBounds bounds fitOptions) w
    = Returned () (fitted b w)
    ∧ (∀ marker m, marker ∈ ms → heap w !! marker = Some m → inside b (latlng m))
    ∧ (∀ outer,
         (∀ marker m, marker ∈ ms → heap w !! marker = Some m → inside outer (latlng m)) →
         within b outer).
Proof.
  intros Hne Hall.
  destruct (positions_total w ms Hall) as (ps & Hps & Hlen & Hel).
  destruct (boundsOf_smallest ps) as (b & Hb & Hin & Hmin).
  { intros ->. destruct ms; [done | discriminate]. }
  exists b. split; [|split].
  - unfold mbind, M_bind. by rewrite (getBounds_run w ms ps Hps), Hb.
  - intros marker m Hm Hlook. apply Hin, Hel. by exists marker, m.
  - intros outer Hout. apply Hmin. intros q (marker & m & ? & ? & <-)%Hel. eauto.
Qed.

Lemma fitMapToMarkers_unfold ms force w :
  ms ≠ [] →
  fitMapToMarkers ms force w
  = if default false force
    then (bounds ← featureGroup_getBounds ms; map_fitBounds bounds fitOptions) w
    else if Qlt_le_dec (Qabs (zoom (lmap w) - 6)) 1
         then (bounds ← featureGroup_getBounds ms; map_fitBounds bounds fitOptions) w
         else Returned () w.
Proof.
  intros Hne. unfold fitMapToMarkers.
  rewrite bool_decide_eq_true_2 by (destruct ms; [done | simpl; lia]).
  destruct (default false force); simpl; [done|].
  unfold mbind at 1, M_bind at 1, map_getZoom at 1. run.
  by destruct (Qlt_le_dec _ _).
Qed.

Lemma getBounds_same_world ms : ∀ bounds w b w',
  forEach ms (λ bounds marker, p ← getLatLng marker; mret (extend bounds p)) bounds w
  = Returned b w' → w' = w.
Proof.
  induction ms as [|marker ms IH]; intros bounds w b w'; simpl.
  - by intros [= _ <-].
  - unfold mbind at 1, M_bind at 1, getLatLng at 1. run.
    destruct (heap w !! marker); simpl; [apply IH | done].
Qed.

(** The fitter touches the map and nothing else. *)
Lemma fitMapToMarkers_frame ms force w w' :
  fitMapToMarkers ms force w = Returned () w' →
  heap w' = heap w ∧ markerCache w' = markerCache w
  ∧ layers (lmap w') = layers (lmap w).
Proof.
  assert (∀ w0, (bounds ← featureGroup_getBounds ms; map_fitBounds bounds fitOptions) w0
                = Returned () w' →
                heap w' = heap w0 ∧ markerCache w' = markerCache w0
                ∧ layers (lmap w') = layers (lmap w0)) as Hfit.
  { intros w0. unfold mbind, M_bind.
    destruct (featureGroup_getBounds ms w0) as [b w1|] eqn:Hb; [|done].
    apply getBounds_same_world in Hb as ->.
    destruct b as [b|]; simpl; [|done]. by intros [= <-]. }
  unfold fitMapToMarkers.
  destruct (bool_decide (0 < length ms)%nat); simpl.
  - destruct (default false force); simpl; [apply Hfit|].
    unfold mbind at 1, M_bind at 1, map_getZoom at 1. run.
    destruct (Qlt_le_dec _ _); [apply Hfit | by intros [= <-]].
  - run. by intros [= <-].
Qed.

Lemma reachable_wf w : reachable w → cache_wf w.
Proof.
  induction 1 as [h m|o w ms w' _ IH Hrun|ms force w w' _ IH Hrun|w w' _ IH Hc Hh].
  - apply cache_wf_start.
  - by eapply createMarkers_wf.
  - apply fitMapToMarkers_frame in Hrun as (Hh & Hc & _).
    unfold cache_wf. by rewrite Hh, Hc.
  - destruct IH as (Hk & Hv & Hb). unfold cache_wf. rewrite Hc.
    repeat split; try done.
    eapply Forall_impl; [done|]. simpl. intros; lia.
Qed.

Lemma forced_branch_run ms w :
  ms ≠ [] →
  fitMapToMarkers ms (Some true) w
  = (bounds ← featureGroup_getBounds ms; map_fitBounds bounds fitOptions) w.
Proof. intros Hne. by rewrite fitMapToMarkers_unfold. Qed.

Lemma passive_branch_run ms force w :
  ms ≠ [] → default false force = false →
  fitMapToMarkers ms force w
  = if Qlt_le_dec (Qabs (zoom (lmap w) - 6)) 1
    then (bounds ← featureGroup_getBounds ms; map_fitBounds bounds fitOptions) w
    else Returned () w.
Proof. intros Hne Hforce. by rewrite fitMapToMarkers_unfold, Hforce. Qed.


(** C5 (passive fit).  With markers and [forceRefresh] unset or false:
    if the zoom of the map is less than one level away from 6, the map is
    asked once to fit the smallest box that holds the positions of all
    the markers, with the padding (20, 20) and the zoom cap 15, and ends
    where the forced fit ends; otherwise the world is left as it is.  So
    the fit is performed if and only if the zoom is that near to 6. *)
Theorem fitMapToMarkers_passive ms force w :
  ms ≠ [] →
  (∀ marker, marker ∈ ms → is_Some (heap w !! marker)) →
  default false force = false →
  ∃ b w',
    fitMapToMarkers ms force w = Returned () w'
    ∧ (∀ marker m, marker ∈ ms → heap w !! marker = Some m → inside b (latlng m))
    ∧ (∀ outer,
         (∀ marker m, marker ∈ ms → heap w !! marker = Some m → inside outer (latlng m)) →
         within b outer)
    ∧ (nearDefaultZoom w →
         newCalls w w' [FitBounds b {| padding := (20, 20)%Z; maxZoom := 15 |}]
         ∧ zoom (lmap w') = limitZoom (fitZoom b)
         ∧ center (lmap w')
           = limitCenter (getBoundsCenter b (20, 20)%Z (fitZoom b)) (limitZoom (fitZoom b))
         ∧ fitMapToMarkers ms (Some true) w = Returned () w')
    ∧ (¬ nearDefaultZoom w → w' = w)
    ∧ ((∃ b', newCalls w w' [FitBounds b' fitOptions]) ↔ nearDefaultZoom w)
    ∧ heap w' = heap w
    ∧ markerCache w' = markerCache w
    ∧ layers (lmap w') = layers (lmap w).
Proof.
  intros Hne Hall Hforce.
  destruct (fit_run ms w Hne Hall) as (b & Hrun & Hin & Hmin).
  exists b.
  rewrite forced_branch_run, passive_branch_run by done.
  unfold nearDefaultZoom.
  destruct (Qlt_le_dec (Qabs (zoom (lmap w) - 6)) 1) as [Hnear|Hfar].
  - exists (fitted b w). split; [exact Hrun|].
    split; [exact Hin|]. split; [exact Hmin|].
    split; [done|]. split; [done|].
    split; [|done]. split; [done|]. intros _. by exists b.
  - apply Qle_not_lt in Hfar.
    exists w. split; [done|].
    split; [exact Hin|]. split; [exact Hmin|].
    split; [done|]. split; [done|].
    split; [|done]. split; [|done].
    intros [b' Hcalls]. unfold newCalls in Hcalls.
    apply (f_equal length) in Hcalls. rewrite length_app in Hcalls. simpl in Hcalls. lia.
Qed.

(** C6 (fallback view).  Without markers the map is asked for the centre
    (28.0339, 1.6596) at zoom 6, whatever [forceRefresh] is, and nothing
    else changes.  The map ends there as far as its own limits let it:
    at that centre and at zoom 6 when they leave both as they are. *)
Theorem fitMapToMarkers_empty force w :
  ∃ w',
    fitMapToMarkers [] force w = Returned () w'
    ∧ newCalls w w' [SetView {| lat := 28.0339; lng := 1.6596 |} 6]
    ∧ zoom (lmap w') = limitZoom 6
    ∧ center (lmap w') = limitCenter {| lat := 28.0339; lng := 1.6596 |} (limitZoom 6)
    ∧ (limitZoom 6 = 6%Q →
       limitCenter {| lat := 28.0339; lng := 1.6596 |} 6
       = {| lat := 28.0339; lng := 1.6596 |} →
       center (lmap w') = {| lat := 28.0339; lng := 1.6596 |}
       ∧ zoom (lmap w') = 6%Q)
    ∧ heap w' = heap w
    ∧ markerCache w' = markerCache w
    ∧ layers (lmap w') = layers (lmap w).
Proof.
  eexists. split.
  - unfold fitMapToMarkers. simpl. run. reflexivity.
  - split; [done|]. split; [done|]. split; [done|].
    split; [|done]. simpl. intros Hz Hc. by rewrite Hz, Hc.
Qed.

(** C9 (outbound link).  The link is the fixed address of the map
    search, then the latitude and the longitude as the platform prints
    them, separated by a comma, then the name percent-encoded: what
    follows [query_place_id=] is made of unreserved characters and [%XX]
    escapes only and decodes to the name, byte for byte.  For
    [Dépôt Nord] at (36, 3) that parameter is [D%C3%A9p%C3%B4t%20Nord]. *)
Theorem createGoogleMapsLink_format latitude longitude name :
  (∃ encodedName,
     createGoogleMapsLink latitude longitude name
     = ("https://www.google.com/maps/search/?api=1&query=" ++ Number_toString latitude
        ++ "," ++ Number_toString longitude ++ "&query_place_id=" ++ encodedName)%string
     ∧ Js.allChars Js.uriSafe encodedName = true
     ∧ Js.percentDecode encodedName = Some name)
  ∧ createGoogleMapsLink 36 3 "Dépôt Nord"
    = ("https://www.google.com/maps/search/?api=1&query=" ++ Number_toString 36
       ++ "," ++ Number_toString 3 ++ "&query_place_id=D%C3%A9p%C3%B4t%20Nord")%string.
Proof.
  split; [|done].
  exists (Js.encodeURIComponent name). split; [done|]. split.
  - apply encodeURIComponent_safe.
  - apply percentDecode_encodeURIComponent.
Qed.

End Fit.

(* ===================================================================== *)
(** ** The functions at work on the sample view *)
(* ===================================================================== *)

Section Examples.
Import Sample.
#[local] Existing Instance Sample.platform.

Example first_call_returns :
  ∃ w, createMarkers first start = Returned [0; 1]%nat w
       ∧ markerCache w = [("warehouse-1", 0%nat); ("chauffeur-7", 1%nat)]
       ∧ calls (lmap w) = [AddLayer 0; AddLayer 1]
       ∧ layers (lmap w) = {[0%nat; 1%nat]}.
Proof. eexists. split; [vm_compute; reflexivity|]. by vm_compute. Qed.

Example later_call_removes :
  ∃ w, createMarkers later afterFirst = Returned [0%nat] w
       ∧ markerCache w = [("warehouse-1", 0%nat)]
       ∧ calls (lmap w) = [AddLayer 0; AddLayer 1; RemoveLayer 1]
       ∧ layers (lmap w) = {[0%nat]}.
Proof. eexists. split; [vm_compute; reflexivity|]. by vm_compute. Qed.

Example moved_call_keeps_marker :
  ∃ w, createMarkers moved afterFirst = Returned [0; 1]%nat w
       ∧ heap w = heap afterFirst
       ∧ (latlng <$> heap w !! 0%nat) = Some {| lat := 36; lng := 3 |}
       ∧ (icon <$> heap w !! 0%nat) = Some desktopWarehouseIcon
       ∧ Warehouse.coordinates depotMoved = {| lat := 32.5; lng := 3.75 |}.
Proof. eexists. split; [vm_compute; reflexivity|]. by vm_compute. Qed.

Example click_on_depot :
  (m ← heap afterFirst !! 0%nat; Some (concat (runListener <$> listeners m)))
  = Some [OpenPopup 0; WarehouseSelected 0 depot].
Proof. reflexivity. Qed.

Example passive_fit_at_default_zoom :
  ∃ w, fitMapToMarkers [0; 1]%nat None afterFirst = Returned () w
       ∧ calls (lmap w)
         = [AddLayer 0; AddLayer 1;
            FitBounds {| southWest := {| lat := 35.5; lng := 2 |};
                         northEast := {| lat := 36; lng := 3 |} |} fitOptions]
       ∧ zoom (lmap w) = 15%Q.
Proof. eexists. split; [vm_compute; reflexivity|]. by vm_compute. Qed.

Example passive_fit_zoomed_in :
  fitMapToMarkers [0; 1]%nat (Some false) (zoomedIn afterFirst)
  = Returned () (zoomedIn afterFirst).
Proof. vm_compute. reflexivity. Qed.

Example forced_fit_of_pair :
  ∃ w, fitMapToMarkers [0; 1]%nat (Some true) pair = Returned () w
       ∧ calls (lmap w)
         = [AddLayer 0; AddLayer 1;
            FitBounds {| southWest := {| lat := 10; lng := 10 |};
                         northEast := {| lat := 20; lng := 20 |} |}
                      {| padding := (20, 20)%Z; maxZoom := 15 |}]
       ∧ zoom (lmap w) = 15%Q.
Proof. eexists. split; [vm_compute; reflexivity|]. by vm_compute. Qed.

Lemma afterFirst_wf : cache_wf afterFirst.
Proof.
  unfold afterFirst.
  destruct (createMarkers first start) as [ms w|] eqn:Hrun.
  - eapply createMarkers_wf; [|exact Hrun]. apply cache_wf_start.
  - apply cache_wf_start.
Qed.

Lemma afterFirst_markers marker :
  marker ∈ [0; 1]%nat → is_Some (heap afterFirst !! marker).
Proof.
  intros [->|[->|[]%elem_of_nil]%elem_of_cons]%elem_of_cons;
    eexists; vm_compute; reflexivity.
Qed.

Lemma pair_markers marker :
  marker ∈ [0; 1]%nat → is_Some (heap pair !! marker).
Proof.
  intros [->|[->|[]%elem_of_nil]%elem_of_cons]%elem_of_cons;
    eexists; vm_compute; reflexivity.
Qed.

Lemma createMarkers_key_set_witness :
  JsMap.wf (markerCache afterFirst)
  ∧ ∃ ms w',
      createMarkers later afterFirst = Returned ms w'
      ∧ (∀ k, k ∈ JsMap.keys (markerCache w') ↔ k ∈ targetIds later)
      ∧ JsMap.wf (markerCache w')
      ∧ (∀ k m1 m2, (k, m1) ∈ markerCache w' → (k, m2) ∈ markerCache w' → m1 = m2).
Proof.
  split; [apply afterFirst_wf|].
  apply (createMarkers_key_set later afterFirst), afterFirst_wf.
Defined.

Lemma createMarkers_idempotent_witness :
  cache_wf afterFirst
  ∧ ∃ ms w',
      createMarkers later afterFirst = Returned ms w'
      ∧ createMarkers later w' = Returned ms w'.
Proof.
  split; [apply afterFirst_wf|].
  apply (createMarkers_idempotent later afterFirst), afterFirst_wf.
Defined.

Lemma createMarkers_removes_absent_witness :
  (cache_wf afterFirst
   ∧ JsMap.get "chauffeur-7" (markerCache afterFirst) = Some 1%nat
   ∧ "chauffeur-7" ∉ targetIds later)
  ∧ ∃ ms w' delta,
      createMarkers later afterFirst = Returned ms w'
      ∧ newCalls afterFirst w' delta
      ∧ RemoveLayer 1 ∈ delta
      ∧ (1%nat ∉ layers (lmap w'))
      ∧ JsMap.get "chauffeur-7" (markerCache w') = None
      ∧ 1%nat ∉ ms.
Proof.
  assert ("chauffeur-7" ∉ targetIds later) as Hout by compute_done.
  split; [split; [apply afterFirst_wf | split; [reflexivity | exact Hout]]|].
  apply (createMarkers_removes_absent later afterFirst "chauffeur-7" 1%nat);
    [apply afterFirst_wf | reflexivity | exact Hout].
Defined.

Lemma createMarkers_skips_unlocated_witness :
  (chauffeurAt None ∈ chauffeurs later
   ∧ Chauffeur.coordinates (chauffeurAt None) = None)
  ∧ ∃ mss ms w',
      createMarkersEach ([first] ++ [later]) start = Returned (mss ++ [ms]) w'
      ∧ createMarkersEach (locatedOnly <$> ([first] ++ [later])) start
        = Returned (mss ++ [ms]) w'
      ∧ length mss = 1%nat
      ∧ length ms = 1%nat
      ∧ "chauffeur-7" ∉ JsMap.keys (markerCache w').
Proof.
  assert (chauffeurAt None ∈ chauffeurs later) as Hin by (left).
  split; [split; [exact Hin | reflexivity]|].
  destruct (createMarkers_skips_unlocated [first] later start (chauffeurAt None) Hin eq_refl)
    as (mss & ms & w' & Hrun & Hsame & Hlen & Hms & Hkey).
  exists mss, ms, w'. repeat split; try done.
  apply Hkey. intros c [->|[]%elem_of_nil]%elem_of_cons _. reflexivity.
Defined.

Lemma fitMapToMarkers_passive_witness :
  ([0; 1]%nat ≠ []
   ∧ (∀ marker, marker ∈ [0; 1]%nat → is_Some (heap afterFirst !! marker))
   ∧ default false None = false)
  ∧ ∃ b w',
      fitMapToMarkers [0; 1]%nat None afterFirst = Returned () w'
      ∧ (∀ marker m, marker ∈ [0; 1]%nat → heap afterFirst !! marker = Some m →
                     inside b (latlng m))
      ∧ (∀ outer,
           (∀ marker m, marker ∈ [0; 1]%nat → heap afterFirst !! marker = Some m →
                        inside outer (latlng m)) →
           within b outer)
      ∧ (nearDefaultZoom afterFirst →
           newCalls afterFirst w' [FitBounds b {| padding := (20, 20)%Z; maxZoom := 15 |}]
           ∧ zoom (lmap w') = limitZoom (fitZoom b)
           ∧ center (lmap w')
             = limitCenter (getBoundsCenter b (20, 20)%Z (fitZoom b)) (limitZoom (fitZoom b))
           ∧ fitMapToMarkers [0; 1]%nat (Some true) afterFirst = Returned () w')
      ∧ (¬ nearDefaultZoom afterFirst → w' = afterFirst)
      ∧ ((∃ b', newCalls afterFirst w' [FitBounds b' fitOptions]) ↔ nearDefaultZoom afterFirst)
      ∧ heap w' = heap afterFirst
      ∧ markerCache w' = markerCache afterFirst
      ∧ layers (lmap w') = layers (lmap afterFirst).
Proof.
  split; [split; [done | split; [apply afterFirst_markers | reflexivity]]|].
  apply (fitMapToMarkers_passive [0; 1]%nat None afterFirst);
    [done | apply afterFirst_markers | reflexivity].
Defined.



Lemma fitMapToMarkers_empty_witness :
  (limitZoom 6 = 6%Q
   ∧ limitCenter {| lat := 28.0339; lng := 1.6596 |} 6 = {| lat := 28.0339; lng := 1.6596 |})
  ∧ ∃ w',
      fitMapToMarkers [] (Some true) (zoomedIn afterFirst) = Returned () w'
      ∧ newCalls (zoomedIn afterFirst) w' [SetView {| lat := 28.0339; lng := 1.6596 |} 6]
      ∧ center (lmap w') = {| lat := 28.0339; lng := 1.6596 |}
      ∧ zoom (lmap w') = 6%Q
      ∧ heap w' = heap (zoomedIn afterFirst)
      ∧ markerCache w' = markerCache (zoomedIn afterFirst)
      ∧ layers (lmap w') = layers (lmap (zoomedIn afterFirst)).
Proof.
  split; [split; reflexivity|].
  destruct (fitMapToMarkers_empty (Some true) (zoomedIn afterFirst))
    as (w' & Hrun & Hcalls & _ & _ & Hview & Hrest).
  exists w'. split; [exact Hrun|]. split; [exact Hcalls|].
  destruct Hview as [Hc Hz]; [reflexivity | reflexivity |].
  split; [exact Hc|]. split; [exact Hz|]. exact Hrest.
Defined.

Lemma createMarkers_reuses_cached_witness :
  ("warehouse-1" ∈ targetIds moved
   ∧ JsMap.get "warehouse-1" (markerCache afterFirst) = Some 0%nat)
  ∧ ∃ ms w',
      createMarkers moved afterFirst = Returned ms w'
      ∧ JsMap.get "warehouse-1" (markerCache w') = Some 0%nat
      ∧ (∀ m, heap afterFirst !! 0%nat = Some m → heap w' !! 0%nat = Some m)
      ∧ (∀ i, targetIds moved !! i = Some "warehouse-1" → ms !! i = Some 0%nat).
Proof.
  assert ("warehouse-1" ∈ targetIds moved) as Hin by (left).
  split; [split; [exact Hin | reflexivity]|].
  apply (createMarkers_reuses_cached moved afterFirst "warehouse-1" 0%nat);
    [exact Hin | reflexivity].
Defined.

End Examples.

(* ===================================================================== *)
(** ** More on the two loops: what they add, and where *)
(* ===================================================================== *)

Lemma attach_heap marker w : heap (attach marker w) = heap w.
Proof. unfold attach. by case_bool_decide. Qed.

Lemma attach_markerCache marker w : markerCache (attach marker w) = markerCache w.
Proof. unfold attach. by case_bool_decide. Qed.

Lemma visits_app tgs1 tgs2 st : visits (tgs1 ++ tgs2) st = visits tgs2 (visits tgs1 st).
Proof. unfold visits. apply foldl_app. Qed.

(** The loops cache nothing but the keys they visit. *)
Lemma visits_keys_sub tgs loc w k :
  k ∈ JsMap.keys (markerCache (visits tgs (loc, w)).2) →
  k ∈ JsMap.keys (markerCache w) ∨ k ∈ tgs.*1.
Proof.
  revert loc w. induction tgs as [|tg tgs IH]; intros loc w Hk; [by left|].
  rewrite visits_cons in Hk.
  destruct (visit tg (loc, w)) as [loc1 w1] eqn:Hv.
  apply IH in Hk as [Hk|Hk]; [|right; by right].
  assert (w1 = (visit tg (loc, w)).2) as -> by (by rewrite Hv).
  unfold visit, obtain in Hk. simpl in Hk.
  destruct (JsMap.get tg.1 (markerCache w)); simpl in Hk;
    rewrite attach_markerCache in Hk; [by left|]. simpl in Hk.
  unfold JsMap.keys in Hk. rewrite fmap_app in Hk.
  apply elem_of_app in Hk as [Hk|Hk%list_elem_of_singleton]; [by left|].
  right. simpl in Hk. subst k. left.
Qed.

(** The markers the loops attach: each once, none that was a layer, all
    of them among the markers recorded. *)
Lemma visits_attached tgs : ∀ loc w,
  ∃ att ms,
    markers (visits tgs (loc, w)).1 = markers loc ++ ms
    ∧ calls (lmap (visits tgs (loc, w)).2) = calls (lmap w) ++ (AddLayer <$> att)
    ∧ layers (lmap (visits tgs (loc, w)).2) = list_to_set att ∪ layers (lmap w)
    ∧ NoDup att
    ∧ (∀ h, h ∈ att → h ∉ layers (lmap w))
    ∧ (∀ h, h ∈ att → h ∈ ms).
Proof.
  induction tgs as [|tg tgs IH]; intros loc w.
  - exists [], []. simpl. rewrite !app_nil_r.
    split; [done|]. split; [done|]. split; [set_solver|].
    split; [constructor|]. split; by intros h ?%elem_of_nil.
  - rewrite visits_cons.
    assert (∃ marker att0,
              visit tg (loc, w)
              = ({| markers := markers loc ++ [marker];
                    currentMarkerIds := {[tg.1]} ∪ currentMarkerIds loc |},
                 (visit tg (loc, w)).2)
              ∧ calls (lmap (visit tg (loc, w)).2) = calls (lmap w) ++ (AddLayer <$> att0)
              ∧ layers (lmap (visit tg (loc, w)).2) = list_to_set att0 ∪ layers (lmap w)
              ∧ (att0 = [] ∨ (att0 = [marker] ∧ marker ∉ layers (lmap w))))
      as (marker & att0 & Hv & Hc0 & Hl0 & Hatt0).
    { unfold visit. cbn [fst snd].
      destruct (obtain tg w) as [marker w0] eqn:Hob. cbn [fst snd].
      assert (lmap w0 = lmap w) as Hsame.
      { unfold obtain in Hob. destruct (JsMap.get tg.1 (markerCache w)); by simplify_eq. }
      exists marker. unfold attach. rewrite Hsame.
      case_bool_decide as Hin.
      - exists []. simpl. rewrite Hsame, app_nil_r.
        repeat split; [set_solver | by left].
      - exists [marker]. simpl. rewrite Hsame.
        repeat split; [set_solver | by right]. }
    rewrite Hv. set (w1 := (visit tg (loc, w)).2) in *.
    destruct (IH {| markers := markers loc ++ [marker];
                    currentMarkerIds := {[tg.1]} ∪ currentMarkerIds loc |} w1)
      as (att & ms & Hms & Hc & Hl & Hnd & Hout & Hin).
    exists (att0 ++ att), (marker :: ms). simpl in Hms.
    split; [by rewrite Hms, <-app_assoc|].
    split; [by rewrite Hc, Hc0, fmap_app, app_assoc|].
    split; [rewrite Hl, Hl0, list_to_set_app_L; set_solver|].
    assert (∀ h, h ∈ att → (h ∉ att0) ∧ (h ∉ layers (lmap w))) as Hsep.
    { intros h Hh. apply Hout in Hh. rewrite Hl0 in Hh. set_solver. }
    split; [|split].
    + apply NoDup_app. split; [|split; [|done]].
      * destruct Hatt0 as [->|[-> _]]; [constructor | apply NoDup_singleton].
      * intros h Hh0 Hh. by destruct (Hsep h Hh).
    + intros h [Hh|Hh]%elem_of_app; [|by destruct (Hsep h Hh)].
      destruct Hatt0 as [->|[-> ?]]; [by apply elem_of_nil in Hh|].
      by apply list_elem_of_singleton in Hh as ->.
    + intros h [Hh|Hh]%elem_of_app; [|right; auto].
      destruct Hatt0 as [->|[-> ?]]; [by apply elem_of_nil in Hh|].
      apply list_elem_of_singleton in Hh as ->. left.
Qed.

(** A key the cache does not hold, met for the first time: the loops make
    its marker, as the record of that place tells. *)
Lemma visits_creates tgs1 tg tgs2 loc w :
  tg.1 ∉ tgs1.*1 →
  JsMap.get tg.1 (markerCache w) = None →
  ∃ marker,
    (length (heap w) ≤ marker)%nat
    ∧ JsMap.get tg.1 (markerCache (visits (tgs1 ++ tg :: tgs2) (loc, w)).2) = Some marker
    ∧ heap (visits (tgs1 ++ tg :: tgs2) (loc, w)).2 !! marker = Some (tg.2 marker).
Proof.
  intros Hfirst Hfree.
  rewrite visits_app, visits_cons.
  pose proof (visits_grows tgs1 loc w) as Hg1.
  pose proof (visits_keys_sub tgs1 loc w tg.1) as Hsub.
  destruct (visits tgs1 (loc, w)) as [loc1 w1]. simpl in *.
  assert (JsMap.get tg.1 (markerCache w1) = None) as Hfree1.
  { apply get_None. intros [Hk|Hk]%Hsub; [|done]. by apply get_None in Hfree. }
  pose proof (visits_grows tgs2 (visit tg (loc1, w1)).1 (visit tg (loc1, w1)).2) as Hg2.
  rewrite <-surjective_pairing in Hg2.
  exists (length (heap w1)). split; [|split].
  - destruct Hg1 as (n & _ & _ & -> & _). rewrite length_app. lia.
  - eapply grows_get; [exact Hg2|].
    unfold visit, obtain. simpl. rewrite Hfree1. simpl.
    rewrite attach_markerCache. simpl. rewrite get_app, Hfree1. simpl.
    by rewrite decide_True.
  - eapply grows_heap; [exact Hg2|].
    unfold visit, obtain. simpl. rewrite Hfree1. simpl.
    rewrite attach_heap. simpl. by apply list_lookup_middle.
Qed.

Lemma visits_creates_at tgs tgs1 tg tgs2 loc w :
  tgs = tgs1 ++ tg :: tgs2 →
  tg.1 ∉ tgs1.*1 →
  JsMap.get tg.1 (markerCache w) = None →
  ∃ marker,
    (length (heap w) ≤ marker)%nat
    ∧ JsMap.get tg.1 (markerCache (visits tgs (loc, w)).2) = Some marker
    ∧ heap (visits tgs (loc, w)).2 !! marker = Some (tg.2 marker).
Proof. intros ->. apply visits_creates. Qed.

(** Keys that are all cached: the loops do not look at the records. *)
Lemma visits_cached tgs1 : ∀ tgs2 loc w,
  tgs1.*1 = tgs2.*1 →
  (∀ k, k ∈ tgs1.*1 → is_Some (JsMap.get k (markerCache w))) →
  visits tgs1 (loc, w) = visits tgs2 (loc, w).
Proof.
  induction tgs1 as [|tg1 tgs1 IH]; intros [|tg2 tgs2] loc w Hkeys Hall;
    try done.
  rewrite !fmap_cons in Hkeys. injection Hkeys as Hk Hkeys.
  rewrite !visits_cons.
  destruct (Hall tg1.1) as [marker Hget]; [left|].
  assert (∀ tg, tg.1 = tg1.1 →
            visit tg (loc, w)
            = ({| markers := markers loc ++ [marker];
                  currentMarkerIds := {[tg1.1]} ∪ currentMarkerIds loc |},
               attach marker w)) as Hvisit.
  { intros tg Heq. unfold visit, obtain. simpl. by rewrite Heq, Hget. }
  rewrite (Hvisit tg1), (Hvisit tg2) by done.
  apply IH; [done|]. intros k Hk'. rewrite attach_markerCache. apply Hall. by right.
Qed.

(** Keys that are all free and all different: the loops make the markers
    in the order of the keys. *)
Lemma visits_fresh tgs : ∀ loc w,
  NoDup tgs.*1 →
  (∀ k, k ∈ tgs.*1 → JsMap.get k (markerCache w) = None) →
  markers (visits tgs (loc, w)).1
  = markers loc ++ seq (length (heap w)) (length tgs)
  ∧ markerCache (visits tgs (loc, w)).2
    = markerCache w ++ zip tgs.*1 (seq (length (heap w)) (length tgs)).
Proof.
  induction tgs as [|tg tgs IH]; intros loc w Hnd Hfree.
  - simpl. by rewrite !app_nil_r.
  - rewrite fmap_cons in Hnd. apply NoDup_cons in Hnd as [Hnew Hnd].
    rewrite visits_cons.
    assert (JsMap.get tg.1 (markerCache w) = None) as Hget by (apply Hfree; left).
    set (w0 := {| heap := heap w ++ [tg.2 (length (heap w))];
                  markerCache := markerCache w ++ [(tg.1, length (heap w))];
                  lmap := lmap w |}).
    assert (visit tg (loc, w)
            = ({| markers := markers loc ++ [length (heap w)];
                  currentMarkerIds := {[tg.1]} ∪ currentMarkerIds loc |},
               attach (length (heap w)) w0)) as ->.
    { unfold visit, obtain. simpl. by rewrite Hget. }
    destruct (IH {| markers := markers loc ++ [length (heap w)];
                    currentMarkerIds := {[tg.1]} ∪ currentMarkerIds loc |}
                 (attach (length (heap w)) w0)) as [Hms Hcache]; [done| |].
    + intros k Hk. rewrite attach_markerCache. simpl. rewrite get_app.
      rewrite (Hfree k) by (by right). simpl.
      rewrite decide_False; [done|]. by intros ->.
    + rewrite Hms, Hcache, attach_heap, attach_markerCache. simpl.
      rewrite length_app. simpl. rewrite Nat.add_1_r, <-!app_assoc. done.
Qed.

(* ===================================================================== *)
(** ** One pass of [createMarkers], effect by effect *)
(* ===================================================================== *)

Section Effects.
Context `{Platform}.

(** Everything a pass does, in one statement: the objects it makes, the
    entries it adds and drops, the calls the map receives. *)
Lemma createMarkers_effects o w :
  ∃ ms w' news adds att,
    createMarkers o w = Returned ms w'
    ∧ heap w' = heap w ++ news
    ∧ markerCache w' = filter (λ e, e.1 ∈ targetIds o) (markerCache w) ++ adds
    ∧ adds.*2 = seq (length (heap w)) (length news)
    ∧ NoDup adds.*1
    ∧ (∀ k, k ∈ adds.*1 ↔ k ∈ targetIds o ∧ JsMap.get k (markerCache w) = None)
    ∧ calls (lmap w')
      = calls (lmap w) ++ (AddLayer <$> att)
          ++ (RemoveLayer <$> (filter (λ e, e.1 ∉ targetIds o) (markerCache w)).*2)
    ∧ layers (lmap w')
      = (list_to_set att ∪ layers (lmap w))
          ∖ list_to_set (filter (λ e, e.1 ∉ targetIds o) (markerCache w)).*2
    ∧ NoDup att
    ∧ (∀ h, h ∈ att ↔ h ∈ ms ∧ h ∉ layers (lmap w))
    ∧ center (lmap w') = center (lmap w)
    ∧ zoom (lmap w') = zoom (lmap w).
Proof.
  rewrite createMarkers_run.
  set (loc0 := {| markers := []; currentMarkerIds := ∅ |}).
  destruct (visits_spec (targets o) loc0 w) as (ms & Hms & Hcur & Hall).
  destruct (visits_attached (targets o) loc0 w)
    as (att & ms' & Hms' & Hcalls & Hlayers & Hndatt & Hattout & Hattin).
  pose proof (visits_grows (targets o) loc0 w)
    as (news & adds & _ & Hheap & Hcache & Hseq & Hnd & Hfree & _ & _ & _ & Hce & Hzo).
  pose proof (visits_keys_sub (targets o) loc0 w) as Hsub.
  destruct (visits (targets o) (loc0, w)) as [loc1 w1]. simpl in *.
  rewrite targets_keys in *. rewrite union_empty_r_L in Hcur.
  rewrite Hms in Hms'. simpl in Hms'. subst ms'.
  set (current := list_to_set (targetIds o) : gset string) in *.
  assert (∀ k, k ∈ adds.*1 ↔ k ∈ targetIds o ∧ JsMap.get k (markerCache w) = None)
    as Hadds.
  { intros k. split.
    - intros Hk. split; [|by apply Hfree].
      destruct (Hsub k) as [Hold|?]; [|by apply get_None in Hold; [|apply Hfree]|done].
      unfold JsMap.keys. rewrite Hcache, fmap_app, elem_of_app. by right.
    - intros [Hk Hnone].
      destruct (Forall2_elem_of_l _ _ _ _ Hall Hk) as (marker & _ & Hget & _).
      rewrite Hcache, get_app, Hnone in Hget.
      apply get_is_Some. by exists marker. }
  assert (filter (λ e : string * handle, e.1 ∉ current) (markerCache w1)
          = filter (λ e, e.1 ∉ targetIds o) (markerCache w)) as Hstale.
  { rewrite Hcache, filter_app.
    rewrite (filter_none_in _ adds), app_nil_r.
    - apply list_filter_iff. intros e. unfold current. by rewrite elem_of_list_to_set.
    - intros e He Hout. apply Hout. unfold current. apply elem_of_list_to_set.
      apply Hadds. apply list_elem_of_fmap. by exists e. }
  exists ms, (sweep (currentMarkerIds loc1) w1), news, adds, att.
  rewrite Hms, Hcur. fold current. simpl.
  unfold staleMarkers. rewrite Hstale.
  split; [done|]. split; [done|]. split.
  { rewrite Hcache, filter_app. f_equal.
    - apply list_filter_iff. intros e. unfold current. by rewrite elem_of_list_to_set.
    - apply filter_all_in. intros e He. unfold current. apply elem_of_list_to_set.
      apply Hadds. apply list_elem_of_fmap. by exists e. }
  split; [done|]. split; [done|]. split; [done|].
  split; [by rewrite Hcalls, app_assoc|].
  split; [by rewrite Hlayers|].
  split; [done|]. split; [|done].
  intros h. split.
  - intros Hh. split; [by apply Hattin | by apply Hattout].
  - intros [Hh Hout].
    destruct (Forall2_elem_r _ _ _ _ Hall Hh) as (k & _ & _ & Hlay).
    rewrite Hlayers in Hlay. set_solver.
Qed.

End Effects.

(* ===================================================================== *)
(** ** Further properties of [createMarkers] *)
(* ===================================================================== *)

Section More.
Context `{Platform}.

(** X1 (the returned markers are on the map).  From a state the program
    can be in, every marker a pass returns is a layer of the map when the
    pass ends, and is an object that exists. *)
Theorem createMarkers_returned_attached o w :
  cache_wf w →
  ∃ ms w',
    createMarkers o w = Returned ms w'
    ∧ ∀ marker, marker ∈ ms →
        marker ∈ layers (lmap w') ∧ is_Some (heap w' !! marker).
Proof.
  intros Hwf.
  destruct (createMarkers_spec o w) as (ms & w1 & Hrun & Hg & Hall).
  exists ms, (sweep (list_to_set (targetIds o)) w1). split; [done|].
  pose proof (grows_wf _ _ Hg Hwf) as (_ & Hinj & Hbound).
  intros marker Hin.
  destruct (Forall2_elem_r _ _ _ _ Hall Hin) as (k & Hk & Hget & Hlay).
  apply get_Some_elem in Hget. split.
  - apply sweep_layers. split; [done|].
    intros (k' & Hin' & Hk')%elem_of_staleMarkers.
    rewrite <-(values_injective _ _ _ _ Hinj Hget Hin') in Hk'.
    by rewrite elem_of_list_to_set in Hk'.
  - simpl. apply lookup_lt_is_Some.
    rewrite Forall_forall in Hbound. apply Hbound.
    apply list_elem_of_fmap. by exists (k, marker).
Qed.

(** X2 (attaching).  The calls a pass makes on the map are its [addTo]
    calls followed by its [removeLayer] calls.  [addTo] is called once for
    each returned marker that was no layer of the map, and for no other
    marker: never for one that is attached already. *)
Theorem createMarkers_attach_calls o w :
  ∃ ms w' att detached,
    createMarkers o w = Returned ms w'
    ∧ newCalls w w' ((AddLayer <$> att) ++ (RemoveLayer <$> detached))
    ∧ NoDup att
    ∧ ∀ marker, marker ∈ att ↔ marker ∈ ms ∧ marker ∉ layers (lmap w).
Proof.
  destruct (createMarkers_effects o w)
    as (ms & w' & news & adds & att & Hrun & _ & _ & _ & _ & _ & Hcalls & _ & Hnd & Hatt & _).
  by exists ms, w', att, (filter (λ e, e.1 ∉ targetIds o) (markerCache w)).*2.
Qed.

(** X3 (detaching).  [removeLayer] is called for the markers the cache
    held under keys that are no target of the pass, once per such entry,
    oldest entry first, and for nothing else; the layers of the map after
    the pass are those before it, with the returned markers and without
    these. *)
Theorem createMarkers_detach_calls o w :
  ∃ ms w' att,
    createMarkers o w = Returned ms w'
    ∧ newCalls w w'
        ((AddLayer <$> att)
           ++ (RemoveLayer <$> (filter (λ e, e.1 ∉ targetIds o) (markerCache w)).*2))
    ∧ layers (lmap w')
      = (list_to_set ms ∪ layers (lmap w))
          ∖ list_to_set (filter (λ e, e.1 ∉ targetIds o) (markerCache w)).*2.
Proof.
  destruct (createMarkers_effects o w)
    as (ms & w' & news & adds & att & Hrun & _ & _ & _ & _ & _ & Hcalls & Hlay & _ & Hatt & _).
  exists ms, w', att. split; [done|]. split; [done|].
  rewrite Hlay. f_equal. apply set_eq. intros h.
  rewrite !elem_of_union, !elem_of_list_to_set, Hatt.
  destruct (decide (h ∈ layers (lmap w))); naive_solver.
Qed.

(** X4 (the view).  A pass never moves the map: the centre and the zoom
    are what they were, and the map receives no call but [addTo] and
    [removeLayer]. *)
Theorem createMarkers_view_untouched o w :
  ∃ ms w' delta,
    createMarkers o w = Returned ms w'
    ∧ newCalls w w' delta
    ∧ center (lmap w') = center (lmap w)
    ∧ zoom (lmap w') = zoom (lmap w)
    ∧ ∀ c, c ∈ delta → ∃ marker, c = AddLayer marker ∨ c = RemoveLayer marker.
Proof.
  destruct (createMarkers_effects o w)
    as (ms & w' & news & adds & att & Hrun & _ & _ & _ & _ & _ & Hcalls & _ & _ & _ & Hce & Hzo).
  eexists ms, w', _. split; [done|]. split; [exact Hcalls|].
  split; [done|]. split; [done|].
  intros c [Hc|Hc]%elem_of_app; apply list_elem_of_fmap in Hc as (marker & -> & _);
    exists marker; auto.
Qed.

(** X5 (no redundant creation).  A pass makes one marker for each target
    key the cache does not hold, counted once however many records bear
    it, and none else; the objects that existed are left as they were. *)
Theorem createMarkers_creates_once o w :
  ∃ ms w' news,
    createMarkers o w = Returned ms w'
    ∧ heap w' = heap w ++ news
    ∧ length news
      = length (remove_dups
                  (filter (λ k, JsMap.get k (markerCache w) = None) (targetIds o))).
Proof.
  destruct (createMarkers_effects o w)
    as (ms & w' & news & adds & att & Hrun & Hheap & _ & Hseq & Hnd & Hadds & _).
  exists ms, w', news. split; [done|]. split; [done|].
  apply (f_equal length) in Hseq. rewrite length_fmap, length_seq in Hseq.
  rewrite <-Hseq, <-(length_fmap fst).
  apply Permutation_length, NoDup_Permutation; [done | apply NoDup_remove_dups |].
  intros k. rewrite Hadds, elem_of_remove_dups, list_elem_of_filter. naive_solver.
Qed.

(** X6 (a new warehouse marker).  For the first warehouse of the list
    that bears a key the cache does not hold, the pass makes a marker at
    the coordinates of the warehouse, with the icon of the display mode,
    the popup built from this record, this translation function and this
    display mode, and the click listener for this record and callback; it
    is cached under the key and returned at the place of the warehouse. *)
Theorem createMarkers_new_warehouse_marker o w before warehouse after :
  warehouses o = before ++ warehouse :: after →
  (∀ x, x ∈ before → Warehouse.id x ≠ Warehouse.id warehouse) →
  JsMap.get (warehouseKey warehouse) (markerCache w) = None →
  ∃ ms w' marker,
    createMarkers o w = Returned ms w'
    ∧ ms !! length before = Some marker
    ∧ JsMap.get (warehouseKey warehouse) (markerCache w') = Some marker
    ∧ (length (heap w) ≤ marker)%nat
    ∧ heap w' !! marker
      = Some {| latlng := Warehouse.coordinates warehouse;
                icon := if default false (isMobile o)
                        then warehouseIcon else desktopWarehouseIcon;
                popup := Some {|
                  content :=
                    warehousePopupContent (t o) (default false (isMobile o)) warehouse
                      (createGoogleMapsLink (lat (Warehouse.coordinates warehouse))
                         (lng (Warehouse.coordinates warehouse))
                         (Warehouse.name warehouse));
                  options := popupOptions (default false (isMobile o)) |};
                listeners := [WarehouseClick marker (onWarehouseClick o) warehouse] |}.
Proof.
  intros Hws Hfirst Hfree.
  set (mob := default false (isMobile o)).
  assert (targets o
          = (warehouseTarget o mob <$> before)
              ++ warehouseTarget o mob warehouse
              :: ((warehouseTarget o mob <$> after)
                    ++ omap (chauffeurTarget o mob) (chauffeurs o))) as Htg.
  { unfold targets. fold mob. rewrite Hws, fmap_app, fmap_cons, <-app_assoc. done. }
  assert (warehouseKey warehouse ∈ targetIds o) as Hk.
  { rewrite <-targets_keys, Htg, fmap_app, fmap_cons, elem_of_app. right. left. }
  assert (targetIds o !! length before = Some (warehouseKey warehouse)) as Hi.
  { unfold targetIds. rewrite Hws, fmap_app, fmap_cons, <-app_assoc.
    rewrite <-(length_fmap warehouseKey before). by apply list_lookup_middle. }
  rewrite createMarkers_run.
  set (loc0 := {| markers := []; currentMarkerIds := ∅ |}).
  destruct (visits_spec (targets o) loc0 w) as (ms & Hms & Hcur & Hall).
  destruct (visits_creates_at (targets o) _ _ _ loc0 w Htg) as (marker & Hge & Hget & Hobj).
  { rewrite <-list_fmap_compose. intros (x & Heq & Hx)%list_elem_of_fmap.
    simpl in Heq. apply warehouseKey_inj in Heq. by destruct (Hfirst x Hx). }
  { done. }
  destruct (visits (targets o) (loc0, w)) as [loc1 w1]. simpl in *.
  rewrite targets_keys in *. rewrite union_empty_r_L in Hcur.
  exists ms, (sweep (currentMarkerIds loc1) w1), marker.
  split; [by rewrite Hms|]. rewrite Hcur.
  split; [|split; [|split; [done | done]]].
  - destruct (Forall2_lookup_l _ _ _ _ _ Hall Hi) as (m' & Hi' & Hget' & _).
    congruence.
  - by rewrite sweep_get_in by (by rewrite elem_of_list_to_set).
Qed.

(** X7 (a new chauffeur marker).  For the first chauffeur of the list
    that has a coordinate and bears a key the cache does not hold, the
    pass makes a marker at that coordinate, with the icon of the display
    mode, the popup built from this record (the name prefixed with
    [TP - ] for an [externe]), and the click listener for this record and
    callback; it is cached under the key and it is returned. *)
Theorem createMarkers_new_chauffeur_marker o w before chauffeur after p :
  chauffeurs o = before ++ chauffeur :: after →
  Chauffeur.coordinates chauffeur = Some p →
  (∀ x, x ∈ before → Chauffeur.id x = Chauffeur.id chauffeur →
        Chauffeur.coordinates x = None) →
  JsMap.get (chauffeurKey chauffeur) (markerCache w) = None →
  ∃ ms w' marker,
    createMarkers o w = Returned ms w'
    ∧ marker ∈ ms
    ∧ JsMap.get (chauffeurKey chauffeur) (markerCache w') = Some marker
    ∧ (length (heap w) ≤ marker)%nat
    ∧ heap w' !! marker
      = Some {| latlng := p;
                icon := if default false (isMobile o)
                        then chauffeurIcon else desktopChauffeurIcon;
                popup := Some {|
                  content :=
                    chauffeurPopupContent (t o) (default false (isMobile o)) chauffeur
                      (if decide (Chauffeur.employeeType chauffeur = externe)
                       then "TP - " ++ Chauffeur.fullName chauffeur
                       else Chauffeur.fullName chauffeur);
                  options := popupOptions (default false (isMobile o)) |};
                listeners := [ChauffeurClick marker (onChauffeurClick o) chauffeur] |}.
Proof.
  intros Hcs Hp Hfirst Hfree.
  set (mob := default false (isMobile o)).
  destruct (chauffeurTarget o mob chauffeur) as [tg|] eqn:Htarget;
    [|unfold chauffeurTarget in Htarget; by rewrite Hp in Htarget].
  assert (tg = (chauffeurKey chauffeur,
                λ marker,
                  {| latlng := p;
                     icon := if mob then chauffeurIcon else desktopChauffeurIcon;
                     popup := Some {|
                       content := chauffeurPopupContent (t o) mob chauffeur
                         (if decide (Chauffeur.employeeType chauffeur = externe)
                          then "TP - " ++ Chauffeur.fullName chauffeur
                          else Chauffeur.fullName chauffeur);
                       options := popupOptions mob |};
                     listeners := [ChauffeurClick marker (onChauffeurClick o) chauffeur] |}))
    as Htgeq.
  { unfold chauffeurTarget in Htarget. rewrite Hp in Htarget. by injection Htarget as <-. }
  assert (targets o
          = ((warehouseTarget o mob <$> warehouses o)
               ++ omap (chauffeurTarget o mob) before)
              ++ tg :: omap (chauffeurTarget o mob) after) as Htg.
  { unfold targets. fold mob.
    rewrite Hcs, omap_app, omap_cons_eq, Htarget, <-app_assoc. done. }
  assert (chauffeurKey chauffeur ∈ targetIds o) as Hk.
  { rewrite <-targets_keys, Htg, fmap_app, fmap_cons, elem_of_app. right.
    rewrite Htgeq. left. }
  rewrite createMarkers_run.
  set (loc0 := {| markers := []; currentMarkerIds := ∅ |}).
  destruct (visits_spec (targets o) loc0 w) as (ms & Hms & Hcur & Hall).
  destruct (visits_creates_at (targets o) _ _ _ loc0 w Htg) as (marker & Hge & Hget & Hobj).
  { rewrite Htgeq. simpl. rewrite fmap_app, elem_of_app.
    intros [(x & Heq & Hx)%list_elem_of_fmap|(x & Heq & Hx)%list_elem_of_fmap].
    - apply list_elem_of_fmap in Hx as (wh & -> & _). simpl in Heq.
      symmetry in Heq. by apply warehouseKey_chauffeurKey in Heq.
    - apply list_elem_of_omap in Hx as (c & Hc & Hsome).
      unfold chauffeurTarget in Hsome.
      destruct (Chauffeur.coordinates c) as [q|] eqn:Hq; [|done].
      injection Hsome as <-. simpl in Heq. symmetry in Heq.
      apply chauffeurKey_inj in Heq. by rewrite (Hfirst c Hc Heq) in Hq. }
  { by rewrite Htgeq. }
  rewrite Htgeq in Hget, Hobj. simpl in Hget, Hobj.
  destruct (visits (targets o) (loc0, w)) as [loc1 w1]. simpl in *.
  rewrite targets_keys in *. rewrite union_empty_r_L in Hcur.
  exists ms, (sweep (currentMarkerIds loc1) w1), marker.
  split; [by rewrite Hms|]. rewrite Hcur.
  split; [|split; [|split; [done | done]]].
  - destruct (Forall2_elem_of_l _ _ _ _ Hall Hk) as (m' & Hin & Hget' & _).
    congruence.
  - by rewrite sweep_get_in by (by rewrite elem_of_list_to_set).
Qed.

(** X8 (cached keys ignore the records).  When every target key of a
    call is cached, the call returns and leaves what any other call with
    the same target keys returns and leaves: the contents of the records,
    the translation function, the callbacks and the display mode are not
    looked at. *)
Theorem createMarkers_cached_ignores_records o1 o2 w :
  targetIds o1 = targetIds o2 →
  (∀ k, k ∈ targetIds o1 → is_Some (JsMap.get k (markerCache w))) →
  createMarkers o1 w = createMarkers o2 w.
Proof.
  intros Hkeys Hall. rewrite !createMarkers_run.
  by rewrite (visits_cached (targets o1) (targets o2)) by (by rewrite !targets_keys).
Qed.

Lemma targets_nil o :
  warehouses o = [] →
  (∀ c, c ∈ chauffeurs o → Chauffeur.coordinates c = None) →
  targets o = [].
Proof.
  intros Hws Hcs. unfold targets. rewrite Hws. simpl.
  induction (chauffeurs o) as [|c cs IH]; [done|].
  rewrite omap_cons_eq. unfold chauffeurTarget at 1.
  rewrite (Hcs c) by left. apply IH. intros c' Hc'. apply Hcs. by right.
Qed.

(** X9 (nothing to show).  With no warehouse and no chauffeur that has a
    coordinate, a pass returns the empty list, empties the cache and asks
    the map to remove every marker the cache held, oldest entry first; it
    makes no object. *)
Theorem createMarkers_nothing_to_show o w :
  warehouses o = [] →
  (∀ c, c ∈ chauffeurs o → Chauffeur.coordinates c = None) →
  createMarkers o w
  = Returned []
      {| heap := heap w;
         markerCache := [];
         lmap := {| layers := layers (lmap w) ∖ list_to_set (JsMap.values (markerCache w));
                    center := center (lmap w);
                    zoom := zoom (lmap w);
                    calls := calls (lmap w)
                               ++ (RemoveLayer <$> JsMap.values (markerCache w)) |} |}.
Proof.
  intros Hws Hcs. rewrite createMarkers_run, targets_nil by done. simpl.
  unfold sweep, staleMarkers. simpl.
  rewrite filter_none_in by (intros e _; apply not_elem_of_empty).
  by rewrite filter_all_in by (intros e _; apply not_elem_of_empty).
Qed.

(** X10 (the first pass).  When the target keys are all different and
    none is cached, a pass makes the markers in the order of the records:
    it returns the next identities in a row, and the cache ends as the
    keys paired with them, in that order, whatever it held. *)
Theorem createMarkers_first_pass o w :
  NoDup (targetIds o) →
  (∀ k, k ∈ targetIds o → JsMap.get k (markerCache w) = None) →
  ∃ w',
    createMarkers o w
    = Returned (seq (length (heap w)) (length (targetIds o))) w'
    ∧ markerCache w'
      = zip (targetIds o) (seq (length (heap w)) (length (targetIds o))).
Proof.
  intros Hnd Hfree. rewrite createMarkers_run.
  set (loc0 := {| markers := []; currentMarkerIds := ∅ |}).
  destruct (visits_fresh (targets o) loc0 w) as [Hms Hcache];
    [by rewrite targets_keys | by rewrite targets_keys|].
  destruct (visits_spec (targets o) loc0 w) as (_ & _ & Hcur & _).
  destruct (visits (targets o) (loc0, w)) as [loc1 w1]. simpl in *.
  rewrite <-(length_fmap fst), targets_keys in Hms, Hcache.
  rewrite targets_keys, union_empty_r_L in Hcur.
  eexists. split; [by rewrite Hms|].
  rewrite Hcur. unfold sweep. cbn [markerCache]. rewrite Hcache, filter_app.
  rewrite filter_none_in, filter_all_in; [done| |].
  - intros e He. apply elem_of_list_to_set.
    apply (list_elem_of_fmap_2 fst) in He.
    by rewrite fst_zip in He by (by rewrite length_seq).
  - intros e He Hin. apply elem_of_list_to_set in Hin.
    apply Hfree in Hin. apply get_None in Hin. apply Hin.
    apply list_elem_of_fmap. by exists e.
Qed.

(** X11 (the invariant).  A pass keeps the cache a map whose markers are
    all different and all exist. *)
Theorem createMarkers_keeps_cache_wf o w :
  cache_wf w →
  ∃ ms w', createMarkers o w = Returned ms w' ∧ cache_wf w'.
Proof.
  intros Hwf.
  destruct (createMarkers_spec o w) as (ms & w1 & Hrun & Hg & _).
  exists ms, (sweep (list_to_set (targetIds o)) w1). split; [done|].
  apply sweep_wf. by eapply grows_wf.
Qed.

(** X12 (one marker per key).  From a state the program can be in, two
    places of the returned list hold the same marker exactly when the
    records of these places bear the same key: records that share an
    identifier share a marker, and no others do. *)
Theorem createMarkers_one_marker_per_key o w :
  cache_wf w →
  ∃ ms w',
    createMarkers o w = Returned ms w'
    ∧ length ms = length (targetIds o)
    ∧ ∀ i j ki kj mi mj,
        targetIds o !! i = Some ki → targetIds o !! j = Some kj →
        ms !! i = Some mi → ms !! j = Some mj →
        (mi = mj ↔ ki = kj).
Proof.
  intros Hwf.
  destruct (createMarkers_spec o w) as (ms & w1 & Hrun & Hg & Hall).
  exists ms, (sweep (list_to_set (targetIds o)) w1). split; [done|].
  split; [symmetry; by eapply Forall2_length|].
  pose proof (grows_wf _ _ Hg Hwf) as (_ & Hinj & _).
  intros i j ki kj mi mj Hki Hkj Hmi Hmj.
  destruct (Forall2_lookup_lr _ _ _ _ _ _ Hall Hki Hmi) as [Hgi _].
  destruct (Forall2_lookup_lr _ _ _ _ _ _ Hall Hkj Hmj) as [Hgj _].
  split.
  - intros ->. apply get_Some_elem in Hgi, Hgj.
    by apply (values_injective _ _ _ _ Hinj Hgi Hgj).
  - intros ->. congruence.
Qed.

End More.

(* ===================================================================== *)
(** ** Further properties of [fitMapToMarkers] and of the link *)
(* ===================================================================== *)

Section MoreFit.
Context `{Platform}.

(** The view a fit to the box [b] sets. *)
Lemma fit_run_at ms w ps b :
  positions w ms = Some ps →
  boundsOf ps = Some b →
  (bounds ← featureGroup_getBounds ms; map_fitBounds bounds fitOptions) w
  = Returned () (fitted b w).
Proof.
  intros Hps Hb. unfold mbind, M_bind. by rewrite (getBounds_run w ms ps Hps), Hb.
Qed.

Lemma fit_ready ms w :
  ms ≠ [] →
  (∀ marker, marker ∈ ms → is_Some (heap w !! marker)) →
  ∃ ps b, positions w ms = Some ps ∧ boundsOf ps = Some b
          ∧ (∀ p, p ∈ ps ↔ ∃ marker m,
                 marker ∈ ms ∧ heap w !! marker = Some m ∧ latlng m = p).
Proof.
  intros Hne Hall.
  destruct (positions_total w ms Hall) as (ps & Hps & Hlen & Hel).
  destruct (boundsOf_smallest ps) as (b & Hb & _).
  { intros ->. destruct ms; [done | discriminate]. }
  by exists ps, b.
Qed.

(** What a call can have done when it returns: nothing, one fit, or the
    fallback view. *)
Lemma fitMapToMarkers_cases ms force w w' :
  fitMapToMarkers ms force w = Returned () w' →
  w' = w
  ∨ (∃ b c z, w' = with_lmap (λ m, {| layers := layers m; center := c; zoom := z;
                                      calls := calls m ++ [FitBounds b fitOptions] |}) w)
  ∨ (∃ p z0 c z, w' = with_lmap (λ m, {| layers := layers m; center := c; zoom := z;
                                         calls := calls m ++ [SetView p z0] |}) w).
Proof.
  assert (∀ w0, (bounds ← featureGroup_getBounds ms; map_fitBounds bounds fitOptions) w0
                = Returned () w' →
                ∃ b c z, w' = with_lmap (λ m, {| layers := layers m; center := c; zoom := z;
                                                 calls := calls m ++ [FitBounds b fitOptions] |}) w0)
    as Hfit.
  { intros w0. unfold mbind, M_bind.
    destruct (featureGroup_getBounds ms w0) as [b w1|] eqn:Hb; [|done].
    apply getBounds_same_world in Hb as ->.
    destruct b as [b|]; simpl; [|done]. intros [= <-]. by eexists b, _, _. }
  unfold fitMapToMarkers.
  destruct (bool_decide (0 < length ms)%nat); simpl.
  - destruct (default false force); simpl; [right; left; by apply Hfit|].
    unfold mbind at 1, M_bind at 1, map_getZoom at 1. run.
    destruct (Qlt_le_dec _ _); [right; left; by apply Hfit | left; by intros; simplify_eq].
  - run. intros [= <-]. right. right. by eexists _, _, _, _.
Qed.

(** X13 (the fitter touches the view only).  Whenever a call returns, the
    marker objects, the cache and the layers of the map are what they
    were, and the map received at most one call, a [fitBounds] or a
    [setView]. *)
Theorem fitMapToMarkers_view_only ms force w w' :
  fitMapToMarkers ms force w = Returned () w' →
  heap w' = heap w
  ∧ markerCache w' = markerCache w
  ∧ layers (lmap w') = layers (lmap w)
  ∧ ∃ delta,
      newCalls w w' delta
      ∧ (length delta ≤ 1)%nat
      ∧ ∀ c, c ∈ delta → (∃ b o, c = FitBounds b o) ∨ (∃ p z, c = SetView p z).
Proof.
  intros Hrun. apply fitMapToMarkers_cases in Hrun.
  destruct Hrun as [Heq|[(b & c & z & Heq)|(p & z0 & c & z & Heq)]]; subst w';
    (split; [done|]); (split; [done|]); (split; [done|]).
  - exists []. unfold newCalls. rewrite app_nil_r.
    repeat split; [simpl; lia|]. by intros c ?%elem_of_nil.
  - exists [FitBounds b fitOptions]. repeat split; [simpl; lia|].
    intros c' ->%list_elem_of_singleton. left. by eexists _, _.
  - exists [SetView p z0]. repeat split; [simpl; lia|].
    intros c' ->%list_elem_of_singleton. right. by eexists _, _.
Qed.

(** X14 (fitting what was returned).  From a state the program can be
    in, the list a pass returns can be handed to the fitter, with any
    [forceRefresh]: the fitter returns, and leaves the cache and the
    layers as the pass left them. *)
Theorem fitMapToMarkers_after_createMarkers o force w :
  cache_wf w →
  ∃ ms w' w'',
    createMarkers o w = Returned ms w'
    ∧ fitMapToMarkers ms force w' = Returned () w''
    ∧ markerCache w'' = markerCache w'
    ∧ layers (lmap w'') = layers (lmap w').
Proof.
  intros Hwf.
  destruct (createMarkers_spec o w) as (ms & w1 & Hrun & Hg & Hall).
  set (w' := sweep (list_to_set (targetIds o)) w1) in *.
  pose proof (grows_wf _ _ Hg Hwf) as (_ & _ & Hbound).
  assert (∀ marker, marker ∈ ms → is_Some (heap w' !! marker)) as Hex.
  { intros marker Hin.
    destruct (Forall2_elem_r _ _ _ _ Hall Hin) as (k & _ & Hget & _).
    apply get_Some_elem in Hget. simpl. apply lookup_lt_is_Some.
    rewrite Forall_forall in Hbound. apply Hbound.
    apply list_elem_of_fmap. by exists (k, marker). }
  assert (∃ w'', fitMapToMarkers ms force w' = Returned () w'') as [w'' Hfit].
  { destruct ms as [|marker ms].
    - eexists. unfold fitMapToMarkers. simpl. run. reflexivity.
    - destruct (fit_run (marker :: ms) w') as (b & Hb & _); [done | done |].
      rewrite fitMapToMarkers_unfold by done.
      destruct (default false force); [by eexists|].
      destruct (Qlt_le_dec _ _); by eexists. }
  exists ms, w', w''. split; [done|]. split; [done|].
  apply fitMapToMarkers_frame in Hfit as (_ & ? & ?). done.
Qed.

(** X15 (a forced fit, twice).  A second forced fit on the same markers
    asks the map for the same box and leaves the centre and the zoom
    where the first put them. *)
Theorem fitMapToMarkers_twice_forced ms w :
  ms ≠ [] →
  (∀ marker, marker ∈ ms → is_Some (heap w !! marker)) →
  ∃ b w1 w2,
    fitMapToMarkers ms (Some true) w = Returned () w1
    ∧ fitMapToMarkers ms (Some true) w1 = Returned () w2
    ∧ newCalls w w2 [FitBounds b fitOptions; FitBounds b fitOptions]
    ∧ center (lmap w2) = center (lmap w1)
    ∧ zoom (lmap w2) = zoom (lmap w1).
Proof.
  intros Hne Hall.
  destruct (fit_ready ms w Hne Hall) as (ps & b & Hps & Hb & _).
  exists b. eexists _, _.
  rewrite !forced_branch_run by done.
  split; [by apply (fit_run_at ms w ps b)|].
  split; [by apply (fit_run_at ms _ ps b)|].
  split; [|done]. unfold newCalls. simpl. by rewrite <-app_assoc.
Qed.


(** X17 (the passive fit, twice).  A second call that is not forced
    moves the view no further than the first: the centre and the zoom
    stay where the first call left them.  When the zoom the first call
    left is not less than one level away from 6, the second call does
    nothing; when it is, the second call repeats the request of the
    first, for the same box. *)
Theorem fitMapToMarkers_settles_passive ms force w :
  ms ≠ [] →
  (∀ marker, marker ∈ ms → is_Some (heap w !! marker)) →
  default false force = false →
  ∃ b w1 w2,
    fitMapToMarkers ms force w = Returned () w1
    ∧ fitMapToMarkers ms force w1 = Returned () w2
    ∧ center (lmap w2) = center (lmap w1)
    ∧ zoom (lmap w2) = zoom (lmap w1)
    ∧ (¬ nearDefaultZoom w1 → w2 = w1)
    ∧ (nearDefaultZoom w1 → ¬ nearDefaultZoom w → w2 = w1)
    ∧ (nearDefaultZoom w1 → nearDefaultZoom w →
       newCalls w w2 [FitBounds b fitOptions; FitBounds b fitOptions]).
Proof.
  intros Hne Hall Hforce.
  destruct (fit_ready ms w Hne Hall) as (ps & b & Hps & Hb & _).
  exists b.
  rewrite passive_branch_run by done.
  unfold nearDefaultZoom.
  destruct (Qlt_le_dec (Qabs (zoom (lmap w) - 6)) 1) as [Hnear|Hfar].
  - assert (positions (fitted b w) ms = Some ps) as Hps1 by exact Hps.
    exists (fitted b w).
    rewrite passive_branch_run by done.
    destruct (Qlt_le_dec (Qabs (zoom (lmap (fitted b w)) - 6)) 1) as [Hnear'|Hfar'].
    + exists (fitted b (fitted b w)).
      split; [by apply (fit_run_at ms w ps b)|].
      split; [by apply (fit_run_at ms _ ps b)|].
      split; [done|]. split; [done|]. split; [done|].
      split; [done|]. intros _ _. unfold newCalls. simpl. by rewrite <-app_assoc.
    + apply Qle_not_lt in Hfar'.
      exists (fitted b w).
      split; [by apply (fit_run_at ms w ps b)|].
      split; [done|]. split; [done|]. split; [done|]. split; [done|].
      split; [done|]. intros Hnear'. by destruct Hfar'.
  - pose proof Hfar as Hfar'. apply Qle_not_lt in Hfar'.
    exists w, w. split; [done|].
    rewrite passive_branch_run by done.
    destruct (Qlt_le_dec _ _) as [Hnear|_]; [by destruct Hfar'|].
    split; [done|]. split; [done|]. split; [done|]. split; [done|].
    split; [done|]. intros Hnear. by destruct Hfar'.
Qed.

(** X18 (the order of the markers).  Two lists that hold the same
    markers, in any order and any number of times, are fitted to boxes
    with equal corners. *)
Theorem fitMapToMarkers_order_irrelevant ms1 ms2 w :
  ms1 ≠ [] →
  (∀ marker, marker ∈ ms1 ↔ marker ∈ ms2) →
  (∀ marker, marker ∈ ms1 → is_Some (heap w !! marker)) →
  ∃ b1 b2 w1 w2,
    fitMapToMarkers ms1 (Some true) w = Returned () w1
    ∧ newCalls w w1 [FitBounds b1 fitOptions]
    ∧ fitMapToMarkers ms2 (Some true) w = Returned () w2
    ∧ newCalls w w2 [FitBounds b2 fitOptions]
    ∧ (lat (southWest b1) == lat (southWest b2))%Q
    ∧ (lng (southWest b1) == lng (southWest b2))%Q
    ∧ (lat (northEast b1) == lat (northEast b2))%Q
    ∧ (lng (northEast b1) == lng (northEast b2))%Q.
Proof.
  intros Hne1 Hsame Hall1.
  assert (ms2 ≠ []) as Hne2.
  { destruct ms1 as [|m ms1]; [done|]. intros ->.
    by apply (elem_of_nil m), Hsame; left. }
  assert (∀ marker, marker ∈ ms2 → is_Some (heap w !! marker)) as Hall2
    by (intros marker Hin; by apply Hall1, Hsame).
  destruct (positions_total w ms1 Hall1) as (ps1 & Hps1 & Hlen1 & Hel1).
  destruct (positions_total w ms2 Hall2) as (ps2 & Hps2 & Hlen2 & Hel2).
  destruct (boundsOf_smallest ps1) as (b1 & Hb1 & Hin1 & Hmin1).
  { intros ->. destruct ms1; [done | discriminate]. }
  destruct (boundsOf_smallest ps2) as (b2 & Hb2 & Hin2 & Hmin2).
  { intros ->. destruct ms2; [done | discriminate]. }
  assert (∀ p, p ∈ ps1 ↔ p ∈ ps2) as Hpts.
  { intros p. rewrite Hel1, Hel2. split; intros (marker & m & Hin & ? & ?);
      exists marker, m; (split; [by apply Hsame | done]). }
  destruct (Hmin1 b2) as [(A1 & A2 & A3 & A4) (A5 & A6 & A7 & A8)];
    [intros q Hq; by apply Hin2, Hpts|].
  destruct (Hmin2 b1) as [(B1 & B2 & B3 & B4) (B5 & B6 & B7 & B8)];
    [intros q Hq; by apply Hin1, Hpts|].
  exists b1, b2. eexists _, _. rewrite !forced_branch_run by done.
  split; [by apply (fit_run_at ms1 w ps1 b1)|]. split; [done|].
  split; [by apply (fit_run_at ms2 w ps2 b2)|]. split; [done|].
  repeat split; by apply Qle_antisym.
Qed.

(** X20 (one marker).  A forced fit to a single marker asks for the box
    whose two corners are the position of the marker, at a zoom of 15 or
    less; the map ends at what its own limits make of that zoom. *)
Theorem fitMapToMarkers_single_marker marker m w :
  heap w !! marker = Some m →
  ∃ w',
    fitMapToMarkers [marker] (Some true) w = Returned () w'
    ∧ newCalls w w'
        [FitBounds {| southWest := latlng m; northEast := latlng m |} fitOptions]
    ∧ (fitZoom {| southWest := latlng m; northEast := latlng m |} <= 15)%Q
    ∧ zoom (lmap w')
      = limitZoom (fitZoom {| southWest := latlng m; northEast := latlng m |}).
Proof.
  intros Hm. eexists. rewrite forced_branch_run by done.
  split; [apply (fit_run_at [marker] w [latlng m]); [|done]|].
  - by rewrite positions_cons, Hm.
  - split; [done|]. split; [apply Q.le_min_l | done].
Qed.

Lemma append_inv_head (p a b : string) : (p ++ a = p ++ b → a = b)%string.
Proof.
  induction p as [|c p IH]; cbv [String.append]; [done|].
  intros [= Heq]. by apply IH.
Qed.

(** X19 (one link per name).  At the same coordinates, two different
    names get two different links. *)
Theorem createGoogleMapsLink_distinct_names latitude longitude name1 name2 :
  name1 ≠ name2 →
  createGoogleMapsLink latitude longitude name1
  ≠ createGoogleMapsLink latitude longitude name2.
Proof.
  intros Hne Heq. apply Hne. unfold createGoogleMapsLink in Heq.
  do 5 apply append_inv_head in Heq.
  apply (f_equal Js.percentDecode) in Heq.
  rewrite !percentDecode_encodeURIComponent in Heq. congruence.
Qed.

End MoreFit.

(* ===================================================================== *)
(** ** The further properties at work on the sample view *)
(* ===================================================================== *)

Section MoreExamples.
Import Sample.
#[local] Existing Instance Sample.platform.

Lemma first_targetIds : targetIds first = ["warehouse-1"; "chauffeur-7"].
Proof. reflexivity. Qed.

Lemma afterFirst_caches_first k :
  k ∈ targetIds first → is_Some (JsMap.get k (markerCache afterFirst)).
Proof.
  rewrite first_targetIds.
  intros [->|[->|[]%elem_of_nil]%elem_of_cons]%elem_of_cons;
    eexists; vm_compute; reflexivity.
Qed.

Lemma createMarkers_returned_attached_witness :
  cache_wf afterFirst
  ∧ ∃ ms w',
      createMarkers later afterFirst = Returned ms w'
      ∧ ∀ marker, marker ∈ ms →
          marker ∈ layers (lmap w') ∧ is_Some (heap w' !! marker).
Proof.
  split; [apply afterFirst_wf|].
  apply (createMarkers_returned_attached later afterFirst), afterFirst_wf.
Defined.

Lemma createMarkers_new_warehouse_marker_witness :
  (warehouses first = [] ++ depot :: []
   ∧ (∀ x, x ∈ [] → Warehouse.id x ≠ Warehouse.id depot)
   ∧ JsMap.get (warehouseKey depot) (markerCache start) = None)
  ∧ ∃ ms w' marker m,
      createMarkers first start = Returned ms w'
      ∧ ms !! 0%nat = Some marker
      ∧ heap w' !! marker = Some m
      ∧ latlng m = {| lat := 36; lng := 3 |}
      ∧ icon m = desktopWarehouseIcon
      ∧ listeners m = [WarehouseClick marker (Some 0%nat) depot].
Proof.
  assert (∀ x : Warehouse, x ∈ [] → Warehouse.id x ≠ Warehouse.id depot) as Hnone
    by (intros x Hx; by apply elem_of_nil in Hx).
  split; [split; [reflexivity | split; [exact Hnone | reflexivity]]|].
  destruct (createMarkers_new_warehouse_marker first start [] depot [] eq_refl Hnone eq_refl)
    as (ms & w' & marker & Hrun & Hi & _ & _ & Hobj).
  exists ms, w', marker. eexists. split; [exact Hrun|]. split; [exact Hi|].
  split; [exact Hobj|]. by repeat split.
Defined.

Lemma createMarkers_new_chauffeur_marker_witness :
  (chauffeurs first = [] ++ chauffeurAt (Some {| lat := 35.5; lng := 2 |}) :: []
   ∧ Chauffeur.coordinates (chauffeurAt (Some {| lat := 35.5; lng := 2 |}))
     = Some {| lat := 35.5; lng := 2 |}
   ∧ (∀ x, x ∈ [] → Chauffeur.id x = "7" → Chauffeur.coordinates x = None)
   ∧ JsMap.get "chauffeur-7" (markerCache start) = None)
  ∧ ∃ ms w' marker m,
      createMarkers first start = Returned ms w'
      ∧ marker ∈ ms
      ∧ heap w' !! marker = Some m
      ∧ latlng m = {| lat := 35.5; lng := 2 |}
      ∧ icon m = desktopChauffeurIcon.
Proof.
  assert (∀ x : Chauffeur, x ∈ [] → Chauffeur.id x = "7" → Chauffeur.coordinates x = None)
    as Hnone by (intros x Hx; by apply elem_of_nil in Hx).
  split; [split; [reflexivity | split; [reflexivity | split; [exact Hnone | reflexivity]]]|].
  destruct (createMarkers_new_chauffeur_marker first start []
              (chauffeurAt (Some {| lat := 35.5; lng := 2 |})) []
              {| lat := 35.5; lng := 2 |} eq_refl eq_refl Hnone eq_refl)
    as (ms & w' & marker & Hrun & Hin & _ & _ & Hobj).
  exists ms, w', marker. eexists. split; [exact Hrun|]. split; [exact Hin|].
  split; [exact Hobj|]. by split.
Defined.

Lemma createMarkers_cached_ignores_records_witness :
  (targetIds first = targetIds moved
   ∧ ∀ k, k ∈ targetIds first → is_Some (JsMap.get k (markerCache afterFirst)))
  ∧ createMarkers first afterFirst = createMarkers moved afterFirst.
Proof.
  split; [split; [reflexivity | apply afterFirst_caches_first]|].
  apply (createMarkers_cached_ignores_records first moved afterFirst);
    [reflexivity | apply afterFirst_caches_first].
Defined.

Lemma createMarkers_nothing_to_show_witness :
  (warehouses (call [] [chauffeurAt None] None) = []
   ∧ ∀ c, c ∈ chauffeurs (call [] [chauffeurAt None] None) →
          Chauffeur.coordinates c = None)
  ∧ ∃ w',
      createMarkers (call [] [chauffeurAt None] None) afterFirst = Returned [] w'
      ∧ markerCache w' = []
      ∧ heap w' = heap afterFirst.
Proof.
  assert (∀ c, c ∈ chauffeurs (call [] [chauffeurAt None] None) →
               Chauffeur.coordinates c = None) as Hnone.
  { intros c [->|[]%elem_of_nil]%elem_of_cons. reflexivity. }
  split; [split; [reflexivity | exact Hnone]|].
  eexists. split.
  - apply (createMarkers_nothing_to_show (call [] [chauffeurAt None] None)
             afterFirst eq_refl Hnone).
  - split; reflexivity.
Defined.

Lemma createMarkers_first_pass_witness :
  (NoDup (targetIds first)
   ∧ ∀ k, k ∈ targetIds first → JsMap.get k (markerCache start) = None)
  ∧ ∃ w',
      createMarkers first start
      = Returned (seq (length (heap start)) (length (targetIds first))) w'
      ∧ markerCache w'
        = zip (targetIds first) (seq (length (heap start)) (length (targetIds first))).
Proof.
  assert (NoDup (targetIds first)) as Hnd by compute_done.
  split; [split; [exact Hnd | reflexivity]|].
  apply (createMarkers_first_pass first start Hnd). reflexivity.
Defined.

Lemma createMarkers_keeps_cache_wf_witness :
  cache_wf afterFirst
  ∧ ∃ ms w', createMarkers later afterFirst = Returned ms w' ∧ cache_wf w'.
Proof.
  split; [apply afterFirst_wf|].
  apply (createMarkers_keeps_cache_wf later afterFirst), afterFirst_wf.
Defined.

Lemma createMarkers_one_marker_per_key_witness :
  cache_wf afterFirst
  ∧ ∃ ms w',
      createMarkers moved afterFirst = Returned ms w'
      ∧ length ms = length (targetIds moved)
      ∧ ∀ i j ki kj mi mj,
          targetIds moved !! i = Some ki → targetIds moved !! j = Some kj →
          ms !! i = Some mi → ms !! j = Some mj →
          (mi = mj ↔ ki = kj).
Proof.
  split; [apply afterFirst_wf|].
  apply (createMarkers_one_marker_per_key moved afterFirst), afterFirst_wf.
Defined.

Lemma fitMapToMarkers_view_only_witness :
  fitMapToMarkers [0; 1]%nat None afterFirst
  = Returned () (worldOf (fitMapToMarkers [0; 1]%nat None afterFirst))
  ∧ heap (worldOf (fitMapToMarkers [0; 1]%nat None afterFirst)) = heap afterFirst
  ∧ markerCache (worldOf (fitMapToMarkers [0; 1]%nat None afterFirst))
    = markerCache afterFirst.
Proof.
  assert (fitMapToMarkers [0; 1]%nat None afterFirst
          = Returned () (worldOf (fitMapToMarkers [0; 1]%nat None afterFirst))) as Hrun
    by (vm_compute; reflexivity).
  split; [exact Hrun|].
  destruct (fitMapToMarkers_view_only _ _ _ _ Hrun) as (Hh & Hc & _). by split.
Defined.

Lemma fitMapToMarkers_after_createMarkers_witness :
  cache_wf afterFirst
  ∧ ∃ ms w' w'',
      createMarkers later afterFirst = Returned ms w'
      ∧ fitMapToMarkers ms (Some true) w' = Returned () w''
      ∧ markerCache w'' = markerCache w'
      ∧ layers (lmap w'') = layers (lmap w').
Proof.
  split; [apply afterFirst_wf|].
  apply (fitMapToMarkers_after_createMarkers later (Some true) afterFirst), afterFirst_wf.
Defined.

Lemma fitMapToMarkers_twice_forced_witness :
  ([0; 1]%nat ≠ []
   ∧ ∀ marker, marker ∈ [0; 1]%nat → is_Some (heap pair !! marker))
  ∧ ∃ b w1 w2,
      fitMapToMarkers [0; 1]%nat (Some true) pair = Returned () w1
      ∧ fitMapToMarkers [0; 1]%nat (Some true) w1 = Returned () w2
      ∧ newCalls pair w2 [FitBounds b fitOptions; FitBounds b fitOptions]
      ∧ center (lmap w2) = center (lmap w1)
      ∧ zoom (lmap w2) = zoom (lmap w1).
Proof.
  split; [split; [done | apply pair_markers]|].
  apply (fitMapToMarkers_twice_forced [0; 1]%nat pair); [done | apply pair_markers].
Defined.


(** On a map that allows no zoom below 16 the fallback ends at zoom 16,
    and a call that is not forced leaves the markers unfitted. *)
Example fallback_then_passive_on_minZoom16 :
  ∃ w0,
    @fitMapToMarkers minZoom16 [] None afterFirst = Returned () w0
    ∧ calls (lmap w0)
      = [AddLayer 0; AddLayer 1; SetView {| lat := 28.0339; lng := 1.6596 |} 6]
    ∧ zoom (lmap w0) = 16%Q
    ∧ @fitMapToMarkers minZoom16 [0; 1]%nat None w0 = Returned () w0.
Proof.
  eexists. split; [vm_compute; reflexivity|].
  split; [by vm_compute|]. split; [by vm_compute|]. vm_compute. reflexivity.
Qed.

Lemma fitMapToMarkers_settles_passive_witness :
  ([0; 1]%nat ≠ []
   ∧ (∀ marker, marker ∈ [0; 1]%nat → is_Some (heap afterFirst !! marker))
   ∧ default false None = false)
  ∧ ∃ b w1 w2,
      fitMapToMarkers [0; 1]%nat None afterFirst = Returned () w1
      ∧ fitMapToMarkers [0; 1]%nat None w1 = Returned () w2
      ∧ center (lmap w2) = center (lmap w1)
      ∧ zoom (lmap w2) = zoom (lmap w1)
      ∧ (¬ nearDefaultZoom w1 → w2 = w1)
      ∧ (nearDefaultZoom w1 → ¬ nearDefaultZoom afterFirst → w2 = w1)
      ∧ (nearDefaultZoom w1 → nearDefaultZoom afterFirst →
         newCalls afterFirst w2 [FitBounds b fitOptions; FitBounds b fitOptions]).
Proof.
  split; [split; [done | split; [apply afterFirst_markers | reflexivity]]|].
  apply (fitMapToMarkers_settles_passive [0; 1]%nat None afterFirst);
    [done | apply afterFirst_markers | reflexivity].
Defined.

(** Where the box fits at zoom 15, the first call that is not forced
    fits and the second does nothing. *)
Example passive_fit_settles :
  ∃ w1,
    fitMapToMarkers [0; 1]%nat None afterFirst = Returned () w1
    ∧ zoom (lmap w1) = 15%Q
    ∧ fitMapToMarkers [0; 1]%nat None w1 = Returned () w1.
Proof.
  eexists. split; [vm_compute; reflexivity|].
  split; [by vm_compute|]. vm_compute. reflexivity.
Qed.

(** Where the box fits at zoom 6 and no closer, each call that is not
    forced repeats the fit. *)
Example passive_fit_repeats :
  ∃ w1 w2,
    @fitMapToMarkers farApart [0; 1]%nat None afterFirst = Returned () w1
    ∧ @fitMapToMarkers farApart [0; 1]%nat None w1 = Returned () w2
    ∧ zoom (lmap w2) = 6%Q
    ∧ calls (lmap w2)
      = [AddLayer 0; AddLayer 1;
         FitBounds {| southWest := {| lat := 35.5; lng := 2 |};
                      northEast := {| lat := 36; lng := 3 |} |} fitOptions;
         FitBounds {| southWest := {| lat := 35.5; lng := 2 |};
                      northEast := {| lat := 36; lng := 3 |} |} fitOptions].
Proof.
  eexists _, _. split; [vm_compute; reflexivity|].
  split; [vm_compute; reflexivity|]. split; by vm_compute.
Qed.

Lemma fitMapToMarkers_order_irrelevant_witness :
  ([0; 1]%nat ≠ []
   ∧ (∀ marker, marker ∈ [0; 1]%nat ↔ marker ∈ [1; 0; 1]%nat)
   ∧ ∀ marker, marker ∈ [0; 1]%nat → is_Some (heap pair !! marker))
  ∧ ∃ b1 b2 w1 w2,
      fitMapToMarkers [0; 1]%nat (Some true) pair = Returned () w1
      ∧ newCalls pair w1 [FitBounds b1 fitOptions]
      ∧ fitMapToMarkers [1; 0; 1]%nat (Some true) pair = Returned () w2
      ∧ newCalls pair w2 [FitBounds b2 fitOptions]
      ∧ (lat (southWest b1) == lat (southWest b2))%Q
      ∧ (lng (southWest b1) == lng (southWest b2))%Q
      ∧ (lat (northEast b1) == lat (northEast b2))%Q
      ∧ (lng (northEast b1) == lng (northEast b2))%Q.
Proof.
  assert (∀ marker, marker ∈ [0; 1]%nat ↔ marker ∈ [1; 0; 1]%nat) as Hsame.
  { intros marker. rewrite !elem_of_cons. tauto. }
  split; [split; [done | split; [exact Hsame | apply pair_markers]]|].
  apply (fitMapToMarkers_order_irrelevant [0; 1]%nat [1; 0; 1]%nat pair);
    [done | exact Hsame | apply pair_markers].
Defined.

Lemma createGoogleMapsLink_distinct_names_witness :
  "Dépôt Nord" ≠ "Dépôt Sud"
  ∧ createGoogleMapsLink 36 3 "Dépôt Nord" ≠ createGoogleMapsLink 36 3 "Dépôt Sud".
Proof.
  assert ("Dépôt Nord" ≠ "Dépôt Sud") as Hne by done.
  split; [exact Hne|].
  apply (createGoogleMapsLink_distinct_names 36 3 "Dépôt Nord" "Dépôt Sud" Hne).
Defined.

Lemma fitMapToMarkers_single_marker_witness :
  ∃ m,
    heap pair !! 0%nat = Some m
    ∧ ∃ w',
        fitMapToMarkers [0%nat] (Some true) pair = Returned () w'
        ∧ newCalls pair w'
            [FitBounds {| southWest := latlng m; northEast := latlng m |} fitOptions]
        ∧ (fitZoom {| southWest := latlng m; northEast := latlng m |} <= 15)%Q
        ∧ zoom (lmap w')
          = limitZoom (fitZoom {| southWest := latlng m; northEast := latlng m |}).
Proof.
  destruct (heap pair !! 0%nat) as [m|] eqn:Hm; [|by vm_compute in Hm].
  exists m. split; [reflexivity|].
  apply (fitMapToMarkers_single_marker 0%nat m pair Hm).
Defined.

End MoreExamples.
